(** * DragDropQuiz: the placement logic of the drag-and-drop quiz component

    A shallow embedding of [src/DragDropQuiz.tsx] (the React component
    [DragDropQuiz]) and of the quiz types of the repository's type
    declarations ([DragDropQuizItem], [DragDropQuizTarget],
    [DragDropQuizNode]).

    The component keeps two pieces of state, [placements] and
    [draggedItem], and derives [shuffledItems], [unplacedItems] and
    [allPlaced] from them on every render.  Event handlers are modelled as
    functions from the state of the render in which they were created to
    the next state; the calls of the [onComplete] callback are recorded in
    the state as a log. *)

From Stdlib Require Import List String Ascii Bool Arith NArith QArith Lia.
From Stdlib Require Import Permutation.
Import ListNotations.
Local Close Scope Q_scope.
Local Open Scope string_scope.
Local Open Scope list_scope.

(* ================================================================== *)
(** ** JavaScript values and objects *)

Module JS.

(** A value of type [string | null]. *)
Inductive value : Type :=
| VNull : value
| VStr : string -> value.

Definition value_eqb (a b : value) : bool :=
  match a, b with
  | VNull, VNull => true
  | VStr s, VStr t => String.eqb s t
  | _, _ => false
  end.

(** Truthiness of a string: only the empty string is falsy. *)
Definition truthy_string (s : string) : bool :=
  negb (String.eqb s "").

(** An object used as a [Record<string, string | null>]: its own
    enumerable data properties, in the order in which [Object.keys]
    enumerates them.  Reading a name that is not a key gives [undefined],
    modelled by [None].

    The objects of the component are created by [{}] and by spread, so
    they inherit from [Object.prototype], which the model leaves out.
    [get] and [set] below are exact on every name that is an own key.  On
    a name that is not an own key, [set] is exact unless the name is
    [__proto__] (an assignment to it reaches the inherited setter and
    creates no key), and [get] is exact unless the name is one of
    [prototype_names] (the read then gives an inherited object, which is
    truthy and equal to no string).  Statements that depend on such a
    read or write exclude these names by a hypothesis. *)
Definition object : Type := list (string * value).

(** The property names of [Object.prototype]. *)
Definition prototype_names : list string :=
  ["__proto__"; "constructor"; "hasOwnProperty"; "isPrototypeOf";
   "propertyIsEnumerable"; "toLocaleString"; "toString"; "valueOf";
   "__defineGetter__"; "__defineSetter__"; "__lookupGetter__";
   "__lookupSetter__"].

Definition keys (o : object) : list string := map fst o.
Definition values (o : object) : list value := map snd o.

(** [o[k]] *)
Fixpoint get (o : object) (k : string) : option value :=
  match o with
  | [] => None
  | (k', v) :: r => if String.eqb k k' then Some v else get r k
  end.

Definition has_key (o : object) (k : string) : bool :=
  match get o k with Some _ => true | None => false end.

(** Array indices: canonical decimal numerals below [2^32 - 1].  Keys
    that are array indices are enumerated first, in ascending numeric
    order; the other keys follow in creation order. *)
Definition digit_of (c : ascii) : option N :=
  let n := N_of_ascii c in
  if ((48 <=? n) && (n <=? 57))%N then Some (n - 48)%N else None.

Fixpoint digits_value (acc : N) (s : string) : option N :=
  match s with
  | EmptyString => Some acc
  | String c r =>
      match digit_of c with
      | Some d => digits_value (acc * 10 + d)%N r
      | None => None
      end
  end.

Definition array_index (s : string) : option N :=
  match s with
  | EmptyString => None
  | String c r =>
      if (Ascii.eqb c "0"%char) && negb (String.eqb r "") then None
      else match digits_value 0%N s with
           | Some n => if (n <? 4294967295)%N then Some n else None
           | None => None
           end
  end.

(** [key_before k k']: a new key [k] is enumerated before the existing
    key [k']. *)
Definition key_before (k k' : string) : bool :=
  match array_index k, array_index k' with
  | Some i, Some j => (i <? j)%N
  | Some _, None => true
  | None, _ => false
  end.

(** Assignment to an existing own property keeps its place. *)
Fixpoint update (k : string) (v : value) (o : object) : object :=
  match o with
  | [] => []
  | (k', v') :: r =>
      if String.eqb k k' then (k', v) :: r else (k', v') :: update k v r
  end.

(** Creation of a new own property. *)
Fixpoint add (k : string) (v : value) (o : object) : object :=
  match o with
  | [] => [(k, v)]
  | (k', v') :: r =>
      if key_before k k' then (k, v) :: (k', v') :: r
      else (k', v') :: add k v r
  end.

(** [o[k] = v] *)
Definition set (k : string) (v : value) (o : object) : object :=
  if has_key o k then update k v o else add k v o.

(** [Array.prototype.includes] on a list of values. *)
Definition includes (l : list value) (v : value) : bool :=
  existsb (value_eqb v) l.

(** [o[k] === s] for a string [s]. *)
Definition get_is (o : object) (k : string) (s : string) : bool :=
  match get o k with
  | Some (VStr t) => String.eqb t s
  | _ => false
  end.

End JS.

(* ================================================================== *)
(** ** The quiz types *)

Record DragDropQuizItem : Type := mkItem {
  item_id : string;
  textKey : string
}.

Record DragDropQuizTarget : Type := mkTarget {
  target_id : string;
  label : string;
  correctItemId : string
}.

Record DragDropQuizNode : Type := mkNode {
  items : list DragDropQuizItem;
  targets : list DragDropQuizTarget;
  nextNode : string;
  incorrectNextNode : string
}.

Definition item_ids (node : DragDropQuizNode) : list string :=
  map item_id (items node).

Definition target_ids (node : DragDropQuizNode) : list string :=
  map target_id (targets node).

Definition Placements : Type := JS.object.

(* ================================================================== *)
(** ** [Array.prototype.sort] with the comparator [() => Math.random() - 0.5]

    The sort is the engine's.  It is modelled after V8's TimSort
    ([ArrayTimSortImpl]): the longest run at the start of the array is
    found and, when it is descending, reversed ([CountAndMakeRun]); the
    remaining elements are then inserted one by one, the place of each
    being found by binary search ([BinaryInsertionSort]):
<<
      order = Compare(a[low+1], a[low]);  isDescending = order < 0;
      for (idx = low + 2; idx < high; ++idx) {
        order = Compare(a[idx], a[idx-1]);
        if (isDescending) { if (order >= 0) break; }
        else              { if (order < 0) break; }
        ++runLength;
      }
      if (isDescending) ReverseRange(a, low, low + runLength);

      for (; start < high; ++start) {
        left = low; right = start; pivot = a[right];
        while (left < right) {
          mid = left + ((right - left) >> 1);
          order = Compare(pivot, a[mid]);
          if (order < 0) right = mid; else left = mid + 1;
        }
        for (p = start; p > left; --p) a[p] = a[p-1];
        a[left] = pivot;
      }
>>
    This is all V8 does on an array of fewer than 64 elements, and on a
    longer array that is a single run.  On a longer array with a shorter
    first run V8 cuts the array into several runs and merges them; the
    model goes on inserting there, so the order it computes is V8's only
    in the two cases named.

    [Math.random] is a source of numbers: its [n]-th call returns
    [random n].  The comparator ignores its arguments, so the sort only
    threads the number of calls made so far. *)

Module Shuffle.

Section Sort.
Context {A : Type}.
Variable random : nat -> Q.

(** The comparator of [shuffledItems], at its [n]-th call. *)
Definition comparefn (n : nat) (_ _ : A) : Q :=
  (random n - (1 # 2))%Q.

(** [order < 0] *)
Definition negative_order (q : Q) : bool :=
  match Qcompare q 0%Q with Lt => true | _ => false end.

(** The loop of [CountAndMakeRun]: the number of elements of [rest] that
    extend the run ending in [previous], with the number of comparator
    calls made so far. *)
Fixpoint extend_run (descending : bool) (previous : A) (rest : list A)
         (n : nat) : nat * nat :=
  match rest with
  | [] => (0, n)
  | current :: rest' =>
      let negative := negative_order (comparefn n current previous) in
      if (if descending then negb negative else negative)
      then (0, S n)
      else let '(k, n') := extend_run descending current rest' (S n) in
           (S k, n')
  end.

(** The [while] loop of [BinaryInsertionSort].  [right - left] shrinks at
    every turn, so [fuel = right - left] turns are enough. *)
Fixpoint binary_search (fuel : nat) (pivot : A) (sorted : list A)
         (left right : nat) (n : nat) : nat * nat :=
  match fuel with
  | 0 => (left, n)
  | S fuel' =>
      if Nat.ltb left right then
        let mid := left + Nat.div2 (right - left) in
        if negative_order (comparefn n pivot (nth mid sorted pivot))
        then binary_search fuel' pivot sorted left mid (S n)
        else binary_search fuel' pivot sorted (S mid) right (S n)
      else (left, n)
  end.

(** The [for] loop of [BinaryInsertionSort]: [sorted] is [a[low..start-1]],
    [todo] is [a[start..high-1]]. *)
Fixpoint binary_insertion (todo sorted : list A) (n : nat)
  : list A * nat :=
  match todo with
  | [] => (sorted, n)
  | pivot :: todo' =>
      let '(index, n') :=
        binary_search (List.length sorted) pivot sorted
                      0 (List.length sorted) n in
      binary_insertion todo'
                       (firstn index sorted ++ pivot :: skipn index sorted)
                       n'
  end.

Definition sort (a : list A) : list A :=
  match a with
  | first :: second :: rest =>
      let descending := negative_order (comparefn 0 second first) in
      let '(k, n) := extend_run descending second rest 1 in
      let runLength := 2 + k in
      let run := firstn runLength a in
      let run := if descending then rev run else run in
      fst (binary_insertion (skipn runLength a) run n)
  | _ => a
  end.
End Sort.

End Shuffle.

(* ================================================================== *)
(** ** The component *)

Module DragDropQuiz.

(** [node.targets.reduce((acc, target) => { acc[target.id] = null; return acc; }, {})] *)
Definition initialPlacements (node : DragDropQuizNode) : Placements :=
  fold_left (fun acc target => JS.set (target_id target) JS.VNull acc)
            (targets node) [].

(** [[...node.items].sort(() => Math.random() - 0.5)] *)
Definition shuffledItems (random : nat -> Q) (node : DragDropQuizNode)
  : list DragDropQuizItem :=
  Shuffle.sort random (items node).

(** [shuffledItems.filter(item => !Object.values(placements).includes(item.id))] *)
Definition unplacedItems (random : nat -> Q) (node : DragDropQuizNode)
           (placements : Placements) : list DragDropQuizItem :=
  filter (fun item =>
            negb (JS.includes (JS.values placements) (JS.VStr (item_id item))))
         (shuffledItems random node).

(** [unplacedItems.length === 0] *)
Definition allPlaced (random : nat -> Q) (node : DragDropQuizNode)
           (placements : Placements) : bool :=
  Nat.eqb (List.length (unplacedItems random node placements)) 0.

(** The state of the component: the two [useState] cells, and the log of
    the arguments with which [onComplete] has been called (most recent
    first), each with the placements it was computed from. *)
Record State : Type := mkState {
  placements : Placements;
  draggedItem : option string;
  completions : list (Placements * bool)
}.

Definition initialState (node : DragDropQuizNode) : State :=
  {| placements := initialPlacements node;
     draggedItem := None;
     completions := [] |}.

Definition handleDragStart (st : State) (itemId : string) : State :=
  {| placements := placements st;
     draggedItem := Some itemId;
     completions := completions st |}.

Definition handleDragEnd (st : State) : State :=
  {| placements := placements st;
     draggedItem := None;
     completions := completions st |}.

(** The [forEach] loop of [handleDrop]: every key that holds the dragged
    item is reset to [null]. *)
Definition free_old_spot (dragged : string) (newPlacements : Placements)
  : Placements :=
  fold_left (fun np key =>
               if JS.get_is np key dragged then JS.set key JS.VNull np
               else np)
            (JS.keys newPlacements) newPlacements.

(** [Object.keys(placements).find(key => placements[key] === draggedItem)] *)
Definition oldTargetKey (placements : Placements) (dragged : string)
  : option string :=
  find (fun key => JS.get_is placements key dragged) (JS.keys placements).

(** The placements that [handleDrop] passes to [setPlacements], for a
    truthy [draggedItem]. *)
Definition newPlacements (placements : Placements) (dragged : string)
           (targetId : string) : Placements :=
  let np := free_old_spot dragged placements in
  let existingItemInTarget := JS.get np targetId in
  let np := JS.set targetId (JS.VStr dragged) np in
  match existingItemInTarget with
  | Some (JS.VStr existing) =>
      if JS.truthy_string existing then
        match oldTargetKey placements dragged with
        | Some key =>
            if JS.truthy_string key
            then JS.set key (JS.VStr existing) np
            else np
        | None => np
        end
      else np
  | _ => np
  end.

(** The branch that [newPlacements] takes: [Some (key, existing)] when
    both [if]s of the swap succeed, [existing] being the item found in the
    target and [key] the result of [oldTargetKey]. *)
Definition swap_of (placements : Placements) (dragged : string)
           (targetId : string) : option (string * string) :=
  match JS.get (free_old_spot dragged placements) targetId with
  | Some (JS.VStr existing) =>
      if JS.truthy_string existing then
        match oldTargetKey placements dragged with
        | Some key =>
            if JS.truthy_string key then Some (key, existing) else None
        | None => None
        end
      else None
  | _ => None
  end.

Definition handleDrop (st : State) (targetId : string) : State :=
  match draggedItem st with
  | None => st
  | Some dragged =>
      if JS.truthy_string dragged then
        {| placements := newPlacements (placements st) dragged targetId;
           draggedItem := None;
           completions := completions st |}
      else st
  end.

(** [node.targets.every(target => placements[target.id] === target.correctItemId)] *)
Definition isCorrect (node : DragDropQuizNode) (placements : Placements)
  : bool :=
  forallb (fun target =>
             JS.get_is placements (target_id target) (correctItemId target))
          (targets node).

Definition handleCheckAnswer (node : DragDropQuizNode) (st : State) : State :=
  {| placements := placements st;
     draggedItem := draggedItem st;
     completions :=
       (placements st, isCorrect node (placements st)) :: completions st |}.

(** [place]: the effect of [handleDrop] on the placements alone, for a
    dragged item given as [string | null]. *)
Definition place (p : Placements) (dragged : option string)
           (targetId : string) : Placements :=
  placements (handleDrop {| placements := p; draggedItem := dragged;
                            completions := [] |} targetId).

(** A sequence of drops, each with the item dragged at that time. *)
Definition drops (p : Placements) (ops : list (string * string))
  : Placements :=
  fold_left (fun acc op => place acc (Some (fst op)) (snd op)) ops p.

(** *** What is rendered *)

(** [node.items.find(item => item.id === placements[target.id])] *)
Definition placedItem (node : DragDropQuizNode) (placements : Placements)
           (target : DragDropQuizTarget) : option DragDropQuizItem :=
  find (fun item => JS.get_is placements (target_id target) (item_id item))
       (items node).

(** The ids of the elements rendered with [draggable] and an
    [onDragStart] handler: the unplaced items of the pool, and the item
    shown in each drop zone. *)
Definition draggable_ids (random : nat -> Q) (node : DragDropQuizNode)
           (placements : Placements) : list string :=
  map item_id (unplacedItems random node placements)
  ++ flat_map (fun target =>
                 match placedItem node placements target with
                 | Some item => [item_id item]
                 | None => []
                 end)
              (targets node).

(** The user's actions.  Each one reaches a handler only through an
    element that is rendered: a drag starts on a draggable element, a
    drop lands on a drop zone of [node.targets] or on the pool (whose
    handler passes the name ['unplaced']), and the button that calls
    [handleCheckAnswer] exists only when [allPlaced] holds.  An action
    on an element that is not rendered cannot happen and leaves the
    state as it is. *)
Inductive Action : Type :=
| DragStart (itemId : string)
| DragEnd
| DropOnTarget (targetId : string)
| DropOnPool
| ClickCheckAnswer.

Definition in_list (s : string) (l : list string) : bool :=
  existsb (String.eqb s) l.

Definition step (random : nat -> Q) (node : DragDropQuizNode)
           (st : State) (a : Action) : State :=
  match a with
  | DragStart itemId =>
      if in_list itemId (draggable_ids random node (placements st))
      then handleDragStart st itemId else st
  | DragEnd => handleDragEnd st
  | DropOnTarget targetId =>
      if in_list targetId (target_ids node)
      then handleDrop st targetId else st
  | DropOnPool => handleDrop st "unplaced"
  | ClickCheckAnswer =>
      if allPlaced random node (placements st)
      then handleCheckAnswer node st else st
  end.

Definition run (random : nat -> Q) (node : DragDropQuizNode)
           (actions : list Action) : State :=
  fold_left (step random node) actions (initialState node).

(** *** The completeness predicate of the specification

    [isComplete] is not a function of the component; it is the
    specification's predicate "every target id has a non-null assigned
    item", written out to be compared with [allPlaced]. *)
Definition isComplete (node : DragDropQuizNode) (placements : Placements)
  : bool :=
  forallb (fun target =>
             match JS.get placements (target_id target) with
             | Some (JS.VStr _) => true
             | _ => false
             end)
          (targets node).

(** The item ids that are values of the placements. *)
Definition assigned (p : Placements) : list string :=
  flat_map (fun kv => match snd kv with
                      | JS.VStr s => [s]
                      | JS.VNull => []
                      end) p.

(** *** Predicates used in the statements *)

(** No item id is the value of two keys. *)
Definition one_target_per_item (p : Placements) : Prop :=
  forall k1 k2 s,
    JS.get p k1 = Some (JS.VStr s) -> JS.get p k2 = Some (JS.VStr s) ->
    k1 = k2.

(** A node with pairwise distinct item ids, pairwise distinct target ids
    and as many items as targets. *)
Definition balanced (node : DragDropQuizNode) : Prop :=
  NoDup (item_ids node) /\ NoDup (target_ids node) /\
  List.length (items node) = List.length (targets node).

(** Drops of items of the node onto targets of the node. *)
Definition on_targets (node : DragDropQuizNode)
           (ops : list (string * string)) : Prop :=
  Forall (fun op => In (fst op) (item_ids node) /\
                    In (snd op) (target_ids node)) ops.

Definition no_pool_drop (actions : list Action) : Prop :=
  Forall (fun a => a <> DropOnPool) actions.

(** The invariant of the placements of a node while items of the node
    are dropped onto its targets. *)
Definition placements_inv (node : DragDropQuizNode) (p : Placements) : Prop :=
  JS.keys p = JS.keys (initialPlacements node) /\
  NoDup (JS.keys p) /\
  one_target_per_item p /\
  incl (assigned p) (item_ids node).

(** What holds of every state reached through user actions. *)
Definition ui_inv (node : DragDropQuizNode) (st : State) : Prop :=
  NoDup (JS.keys (placements st)) /\
  incl (assigned (placements st)) (item_ids node) /\
  (forall d, draggedItem st = Some d -> In d (item_ids node)).

(** What holds in addition when nothing is dropped on the pool. *)
Definition ui_inv_targets (random : nat -> Q) (node : DragDropQuizNode)
           (st : State) : Prop :=
  placements_inv node (placements st) /\
  (forall d, draggedItem st = Some d -> In d (item_ids node)) /\
  (forall p b, In (p, b) (completions st) ->
               allPlaced random node p = true /\ placements_inv node p).

(** The drops that put on every target, in declared order, the item it
    declares as correct. *)
Definition solution (node : DragDropQuizNode) : list (string * string) :=
  map (fun target => (correctItemId target, target_id target))
      (targets node).

(** The user actions that put on every target, in declared order, the
    item it declares as correct: pick the item up, drop it on the
    target. *)
Definition solution_actions (node : DragDropQuizNode) : list Action :=
  flat_map (fun target => [DragStart (correctItemId target);
                           DropOnTarget (target_id target)])
           (targets node).

(** The example node of the specification. *)
Definition esg_node : DragDropQuizNode :=
  {| items := [mkItem "a" "item_a"; mkItem "b" "item_b"; mkItem "c" "item_c"];
     targets := [mkTarget "E" "E" "a"; mkTarget "S" "S" "b";
                 mkTarget "G" "G" "c"];
     nextNode := "quiz_ok";
     incorrectNextNode := "quiz_retry" |}.

End DragDropQuiz.

(* ================================================================== *)
(** ** The label lookup of the component *)

Module Presentation.

Inductive Language : Type := en | ms.

(** [const t = (key: string) => translations[language][key] || key].

    The table [translations] lives in another module of the application;
    it is a parameter here, giving for a language and a key the string
    stored under the key, or [None] when the key is missing
    ([undefined]).  [||] takes its right operand when the left one is
    falsy, that is, [undefined] or the empty string. *)
Definition t (translations : Language -> string -> option string)
           (language : Language) (key : string) : string :=
  match translations language key with
  | Some text => if JS.truthy_string text then text else key
  | None => key
  end.

End Presentation.

(* ================================================================== *)
(** * Properties of the object model *)

Module JSFacts.
Import JS.

Ltac string_cases :=
  repeat match goal with
         | |- context [String.eqb ?a ?b] =>
             destruct (String.eqb_spec a b); subst; try congruence
         | H : context [String.eqb ?a ?b] |- _ =>
             destruct (String.eqb_spec a b); subst; try congruence
         end.

Lemma truthy_string_true (s : string) :
  truthy_string s = true <-> s <> "".
Proof.
  unfold truthy_string. destruct (String.eqb_spec s ""); simpl; split;
    congruence.
Qed.

Lemma get_None_keys (o : object) (k : string) :
  get o k = None <-> ~ In k (keys o).
Proof.
  induction o as [|[k' v] r IH]; simpl.
  - tauto.
  - destruct (String.eqb_spec k k') as [->|Hne].
    + split; [discriminate | intros H; exfalso; apply H; now left].
    + rewrite IH. split; intros H; [intros [E|I]|]; try tauto. congruence.
Qed.

Lemma has_key_keys (o : object) (k : string) :
  has_key o k = true <-> In k (keys o).
Proof.
  unfold has_key. destruct (get o k) eqn:E.
  - split; [intros _|reflexivity].
    destruct (in_dec string_dec k (keys o)) as [I|N]; [exact I|].
    apply get_None_keys in N. congruence.
  - split; [discriminate|]. intros I. apply get_None_keys in E. tauto.
Qed.

Lemma get_In (o : object) (k : string) (v : value) :
  get o k = Some v -> In (k, v) o.
Proof.
  induction o as [|[k' v'] r IH]; simpl; [discriminate|].
  destruct (String.eqb_spec k k') as [->|Hne].
  - intros [= ->]. now left.
  - intros H. right. now apply IH.
Qed.

Lemma In_get (o : object) (k : string) (v : value) :
  NoDup (keys o) -> In (k, v) o -> get o k = Some v.
Proof.
  induction o as [|[k' v'] r IH]; simpl; [tauto|].
  intros ND [E|I].
  - inversion E; subst. now rewrite String.eqb_refl.
  - inversion ND as [|? ? Hnot ND']; subst.
    destruct (String.eqb_spec k k') as [->|Hne].
    + exfalso. apply Hnot. change k' with (fst (k', v)). now apply in_map.
    + now apply IH.
Qed.

Lemma get_update (k : string) (v : value) (o : object) (k' : string) :
  get (update k v o) k' =
  if String.eqb k k'
  then match get o k with Some _ => Some v | None => None end
  else get o k'.
Proof.
  induction o as [|[k0 v0] r IH]; simpl.
  - now destruct (String.eqb k k').
  - destruct (String.eqb_spec k k0) as [->|Hne]; simpl.
    + rewrite (String.eqb_sym k0 k'). now destruct (String.eqb k' k0).
    + rewrite IH. string_cases.
Qed.

Lemma get_add (k : string) (v : value) (o : object) (k' : string) :
  get o k = None ->
  get (add k v o) k' = if String.eqb k k' then Some v else get o k'.
Proof.
  induction o as [|[k0 v0] r IH]; simpl; intros Hk.
  - rewrite (String.eqb_sym k' k). now destruct (String.eqb k k').
  - destruct (String.eqb_spec k k0) as [->|Hne]; [discriminate|].
    destruct (key_before k k0); simpl.
    + rewrite (String.eqb_sym k' k). now destruct (String.eqb k k').
    + rewrite (IH Hk). string_cases.
Qed.

(** Reading after writing. *)
Lemma get_set (k : string) (v : value) (o : object) (k' : string) :
  get (set k v o) k' = if String.eqb k k' then Some v else get o k'.
Proof.
  unfold set, has_key. destruct (get o k) eqn:E.
  - now rewrite get_update, E.
  - now apply get_add.
Qed.

Lemma keys_update (k : string) (v : value) (o : object) :
  keys (update k v o) = keys o.
Proof.
  induction o as [|[k0 v0] r IH]; simpl; [reflexivity|].
  destruct (String.eqb k k0); simpl; [reflexivity|]. now f_equal.
Qed.

Lemma add_Permutation (k : string) (v : value) (o : object) :
  Permutation (add k v o) ((k, v) :: o).
Proof.
  induction o as [|[k0 v0] r IH]; simpl; [reflexivity|].
  destruct (key_before k k0); [reflexivity|].
  rewrite IH. apply perm_swap.
Qed.

(** Writing an existing key leaves the enumeration of the keys as it is. *)
Lemma keys_set_present (k : string) (v : value) (o : object) :
  In k (keys o) -> keys (set k v o) = keys o.
Proof.
  intros I. unfold set. apply has_key_keys in I. rewrite I.
  apply keys_update.
Qed.

Lemma keys_set_absent (k : string) (v : value) (o : object) :
  ~ In k (keys o) -> Permutation (keys (set k v o)) (k :: keys o).
Proof.
  intros N. unfold set.
  destruct (has_key o k) eqn:E; [apply has_key_keys in E; tauto|].
  unfold keys. change (k :: map fst o) with (map fst ((k, v) :: o)).
  apply Permutation_map, add_Permutation.
Qed.

Lemma In_keys_set (k : string) (v : value) (o : object) (k' : string) :
  In k' (keys (set k v o)) <-> k' = k \/ In k' (keys o).
Proof.
  destruct (in_dec string_dec k (keys o)) as [I|N].
  - rewrite (keys_set_present _ _ _ I). split; [tauto|].
    intros [->|H]; assumption.
  - pose proof (keys_set_absent k v o N) as P. split.
    + intros H. apply (Permutation_in _ P) in H. simpl in H.
      destruct H; [left; congruence | now right].
    + intros H. apply (Permutation_in _ (Permutation_sym P)). simpl.
      destruct H; [left; congruence | now right].
Qed.

Lemma NoDup_keys_set (k : string) (v : value) (o : object) :
  NoDup (keys o) -> NoDup (keys (set k v o)).
Proof.
  intros ND. destruct (in_dec string_dec k (keys o)) as [I|N].
  - now rewrite (keys_set_present _ _ _ I).
  - apply (Permutation_NoDup (Permutation_sym (keys_set_absent k v o N))).
    now constructor.
Qed.

Lemma get_is_true (o : object) (k s : string) :
  get_is o k s = true <-> get o k = Some (VStr s).
Proof.
  unfold get_is. destruct (get o k) as [[|t]|]; try (split; discriminate).
  destruct (String.eqb_spec t s) as [->|Hne]; split; congruence.
Qed.

Lemma in_list_In (s : string) (l : list string) :
  DragDropQuiz.in_list s l = true <-> In s l.
Proof.
  unfold DragDropQuiz.in_list. rewrite existsb_exists. split.
  - intros [x [I E]]. apply String.eqb_eq in E. now subst.
  - intros I. exists s. split; [exact I | apply String.eqb_refl].
Qed.

Lemma includes_In (l : list value) (v : value) :
  includes l v = true <-> In v l.
Proof.
  unfold includes. rewrite existsb_exists. split.
  - intros [x [I E]]. destruct v, x; simpl in E; try discriminate; auto.
    apply String.eqb_eq in E. now subst.
  - intros I. exists v. split; [exact I|].
    destruct v; simpl; [reflexivity | apply String.eqb_refl].
Qed.

End JSFacts.

(* ================================================================== *)
(** * Properties of [handleDrop] *)

Module DropFacts.
Import JS JSFacts DragDropQuiz.

(** The [forEach] loop, over any list of keys. *)
Lemma get_free_loop (d : string) (ks : list string) (o : object)
      (k : string) :
  get (fold_left (fun np key =>
                    if get_is np key d then set key VNull np else np) ks o) k
  = if in_list k ks && get_is o k d then Some VNull else get o k.
Proof.
  revert o. induction ks as [|key ks IH]; intros o; simpl; [reflexivity|].
  rewrite IH. clear IH.
  assert (Hstep : forall k',
             get (if get_is o key d then set key VNull o else o) k'
             = if String.eqb key k' && get_is o k' d then Some VNull
               else get o k').
  { intros k'. destruct (String.eqb_spec key k') as [->|Hne]; simpl.
    - destruct (get_is o k' d) eqn:E; [|reflexivity].
      now rewrite get_set, String.eqb_refl.
    - destruct (get_is o key d); [|reflexivity].
      rewrite get_set. now apply String.eqb_neq in Hne as ->. }
  assert (His : get_is (if get_is o key d then set key VNull o else o) k d
                = if String.eqb key k && get_is o k d then false
                  else get_is o k d).
  { unfold get_is at 1. rewrite Hstep.
    destruct (String.eqb key k && get_is o k d); reflexivity. }
  rewrite His, Hstep, (String.eqb_sym k key).
  destruct (String.eqb key k), (get_is o k d), (in_list k ks); reflexivity.
Qed.

(** After the loop a key that held the dragged item holds [null]; the
    other keys are as before. *)
Lemma get_free_old_spot (d : string) (o : object) (k : string) :
  get (free_old_spot d o) k
  = if get_is o k d then Some VNull else get o k.
Proof.
  unfold free_old_spot. rewrite get_free_loop.
  destruct (get_is o k d) eqn:E; [|now rewrite andb_false_r].
  assert (I : in_list k (keys o) = true).
  { apply in_list_In. apply get_is_true in E.
    destruct (in_dec string_dec k (keys o)) as [I|N]; [exact I|].
    apply get_None_keys in N. congruence. }
  now rewrite I.
Qed.

Lemma keys_free_loop (d : string) (ks : list string) (o : object) :
  keys (fold_left (fun np key =>
                     if get_is np key d then set key VNull np else np) ks o)
  = keys o.
Proof.
  revert o. induction ks as [|key ks IH]; intros o; simpl; [reflexivity|].
  rewrite IH. destruct (get_is o key d) eqn:E; [|reflexivity].
  apply keys_set_present. apply get_is_true in E.
  destruct (in_dec string_dec key (keys o)) as [I|N]; [exact I|].
  apply get_None_keys in N. congruence.
Qed.

Lemma keys_free_old_spot (d : string) (o : object) :
  keys (free_old_spot d o) = keys o.
Proof. apply keys_free_loop. Qed.

Lemma free_old_spot_str (d : string) (o : object) (k s : string) :
  get (free_old_spot d o) k = Some (VStr s) ->
  get o k = Some (VStr s) /\ s <> d.
Proof.
  rewrite get_free_old_spot. destruct (get_is o k d) eqn:E; [discriminate|].
  intros H. split; [exact H|]. intros ->.
  apply get_is_true in H. congruence.
Qed.

Lemma oldTargetKey_Some (p : Placements) (d key : string) :
  oldTargetKey p d = Some key ->
  In key (keys p) /\ get p key = Some (VStr d).
Proof.
  unfold oldTargetKey. intros H. apply find_some in H as [I E].
  split; [exact I | now apply get_is_true].
Qed.

Lemma oldTargetKey_None (p : Placements) (d : string) :
  oldTargetKey p d = None -> forall k, get p k <> Some (VStr d).
Proof.
  unfold oldTargetKey. intros H k E.
  assert (I : In k (keys p)).
  { destruct (in_dec string_dec k (keys p)) as [I|N]; [exact I|].
    apply get_None_keys in N. congruence. }
  apply (find_none _ _ H) in I. apply get_is_true in E. congruence.
Qed.

(** The key found by [oldTargetKey] is the first one, in the order of
    [Object.keys], that holds the dragged item. *)
Lemma oldTargetKey_first (p : Placements) (d key : string) :
  oldTargetKey p d = Some key ->
  exists before after,
    keys p = before ++ key :: after /\
    forall k, In k before -> get p k <> Some (VStr d).
Proof.
  unfold oldTargetKey. generalize (keys p) as ks.
  induction ks as [|k0 ks IH]; simpl; [discriminate|].
  destruct (get_is p k0 d) eqn:E.
  - intros [= ->]. exists [], ks. split; [reflexivity|]. intros k [].
  - intros H. destruct (IH H) as (b & a & -> & Hb).
    exists (k0 :: b), a. split; [reflexivity|].
    intros k [<-|I]; [|now apply Hb].
    intros G. apply get_is_true in G. congruence.
Qed.

Lemma newPlacements_swap_of (p : Placements) (d t : string) :
  newPlacements p d t =
  match swap_of p d t with
  | Some (key, existing) =>
      set key (VStr existing) (set t (VStr d) (free_old_spot d p))
  | None => set t (VStr d) (free_old_spot d p)
  end.
Proof.
  unfold newPlacements, swap_of.
  destruct (get (free_old_spot d p) t) as [[|e]|]; try reflexivity.
  destruct (truthy_string e); [|reflexivity].
  destruct (oldTargetKey p d) as [key|]; [|reflexivity].
  destruct (truthy_string key); reflexivity.
Qed.

(** When the swap is taken. *)
Lemma swap_of_Some (p : Placements) (d t key e : string) :
  swap_of p d t = Some (key, e) <->
  get p t = Some (VStr e) /\ e <> d /\ e <> "" /\
  oldTargetKey p d = Some key /\ key <> "".
Proof.
  unfold swap_of. split.
  - destruct (get (free_old_spot d p) t) as [[|e']|] eqn:G; try discriminate.
    apply free_old_spot_str in G as [G Hne].
    destruct (truthy_string e') eqn:Te; [|discriminate].
    destruct (oldTargetKey p d) as [key'|]; [|discriminate].
    destruct (truthy_string key') eqn:Tk; [|discriminate].
    intros [= -> ->]. apply truthy_string_true in Te, Tk. tauto.
  - intros (G & Hne & Te & -> & Tk).
    rewrite get_free_old_spot.
    destruct (get_is p t d) eqn:E.
    { apply get_is_true in E. congruence. }
    rewrite G. apply truthy_string_true in Te, Tk. now rewrite Te, Tk.
Qed.

(** What a key holds after a drop. *)
Lemma get_newPlacements (p : Placements) (d t k : string) :
  get (newPlacements p d t) k =
  match swap_of p d t with
  | Some (key, existing) =>
      if String.eqb key k then Some (VStr existing)
      else if String.eqb t k then Some (VStr d)
      else if get_is p k d then Some VNull else get p k
  | None =>
      if String.eqb t k then Some (VStr d)
      else if get_is p k d then Some VNull else get p k
  end.
Proof.
  rewrite newPlacements_swap_of.
  destruct (swap_of p d t) as [[key e]|];
    now rewrite ?get_set, get_free_old_spot.
Qed.

(** A drop onto a key of the placements leaves the key enumeration as
    it is. *)
Lemma keys_newPlacements (p : Placements) (d t : string) :
  In t (keys p) -> keys (newPlacements p d t) = keys p.
Proof.
  intros I. rewrite newPlacements_swap_of.
  assert (K1 : keys (set t (VStr d) (free_old_spot d p)) = keys p).
  { rewrite keys_set_present; rewrite keys_free_old_spot; auto. }
  destruct (swap_of p d t) as [[key e]|] eqn:S; [|exact K1].
  apply swap_of_Some in S as (_ & _ & _ & S & _).
  apply oldTargetKey_Some in S as [Ik _].
  rewrite keys_set_present; rewrite K1; auto.
Qed.

Lemma NoDup_keys_newPlacements (p : Placements) (d t : string) :
  NoDup (keys p) -> NoDup (keys (newPlacements p d t)).
Proof.
  intros ND. rewrite newPlacements_swap_of.
  assert (N1 : NoDup (keys (set t (VStr d) (free_old_spot d p)))).
  { apply NoDup_keys_set. now rewrite keys_free_old_spot. }
  destruct (swap_of p d t) as [[key e]|]; [|exact N1].
  now apply NoDup_keys_set.
Qed.

Ltac split_reads :=
  repeat match goal with
         | |- context [String.eqb ?a ?b] =>
             destruct (String.eqb_spec a b); [subst|]
         end;
  repeat match goal with
         | |- context [get_is ?o ?k ?d] => destruct (get_is o k d) eqn:?
         end.

Ltac close_reads Hinj :=
  intros;
  repeat match goal with
         | H : Some (VStr _) = Some (VStr _) |- _ =>
             injection H as H; try subst
         end;
  try congruence;
  try match goal with
      | E : get_is ?o ?k ?d = false, H : get ?o ?k = Some (VStr ?d) |- _ =>
          apply get_is_true in H; congruence
      end;
  try (eapply Hinj; eassumption);
  try match goal with
      | N : ?a <> ?b |- _ =>
          exfalso; apply N; eapply Hinj; eassumption
      end.

(** A drop keeps every item on at most one target. *)
Lemma one_target_per_item_newPlacements (p : Placements) (d t : string) :
  one_target_per_item p -> one_target_per_item (newPlacements p d t).
Proof.
  intros Hinj k1 k2 s. rewrite !get_newPlacements.
  destruct (swap_of p d t) as [[key e]|] eqn:S.
  - apply swap_of_Some in S as (Gt & Hed & _ & S & _).
    apply oldTargetKey_Some in S as [_ Gk].
    split_reads; close_reads Hinj.
  - split_reads; close_reads Hinj.
Qed.

End DropFacts.

(* ================================================================== *)
(** * Assigned items, initial placements and the shuffle *)

Module StateFacts.
Import JS JSFacts DragDropQuiz DropFacts.

Lemma In_assigned (p : Placements) (s : string) :
  In s (assigned p) <-> exists k, In (k, VStr s) p.
Proof.
  unfold assigned. rewrite in_flat_map. split.
  - intros [[k v] [I H]]. simpl in H. destruct v as [|s']; [destruct H|].
    destruct H as [->|[]]. now exists k.
  - intros [k I]. exists (k, VStr s). split; [exact I | now left].
Qed.

Lemma In_assigned_values (p : Placements) (s : string) :
  In s (assigned p) <-> In (VStr s) (values p).
Proof.
  rewrite In_assigned. unfold values. rewrite in_map_iff. split.
  - intros [k I]. now exists (k, VStr s).
  - intros [[k v] [E I]]. simpl in E. subst. now exists k.
Qed.

Lemma get_assigned (p : Placements) (k s : string) :
  get p k = Some (VStr s) -> In s (assigned p).
Proof. intros G. apply In_assigned. exists k. now apply get_In. Qed.

Lemma assigned_length (p : Placements) :
  List.length (assigned p) <= List.length p.
Proof.
  induction p as [|[k [|s]] r IH]; simpl; lia.
Qed.

(** The assigned items are as many as the keys exactly when no key holds
    [null]. *)
Lemma assigned_full (p : Placements) :
  List.length (assigned p) = List.length p <->
  forall k v, In (k, v) p -> exists s, v = VStr s.
Proof.
  induction p as [|[k [|s]] r IH]; simpl.
  - split; [intros _ ? ? [] | reflexivity].
  - pose proof (assigned_length r) as L. split; [lia|].
    intros H. destruct (H k VNull (or_introl eq_refl)) as [s E].
    discriminate.
  - split.
    + intros E k' v' [[= <- <-]|I]; [now exists s|].
      apply IH in I; [exact I | lia].
    + intros H. f_equal. apply IH. intros k' v' I. apply (H k' v'). now right.
Qed.

Lemma NoDup_assigned (p : Placements) :
  NoDup (keys p) -> one_target_per_item p -> NoDup (assigned p).
Proof.
  induction p as [|[k v] r IH]; intros ND Hinj; [constructor|].
  simpl in ND. inversion ND as [|? ? Hk ND']; subst.
  assert (Hr : one_target_per_item r).
  { intros k1 k2 s G1 G2. apply (Hinj k1 k2 s); simpl.
    - destruct (String.eqb_spec k1 k) as [->|_]; [|exact G1].
      exfalso. apply Hk. change k with (fst (k, VStr s)).
      apply in_map. now apply get_In.
    - destruct (String.eqb_spec k2 k) as [->|_]; [|exact G2].
      exfalso. apply Hk. change k with (fst (k, VStr s)).
      apply in_map. now apply get_In. }
  specialize (IH ND' Hr). destruct v as [|s]; [exact IH|].
  change (assigned ((k, VStr s) :: r)) with (s :: assigned r).
  constructor; [|exact IH].
  intros I. apply In_assigned in I as [k' I].
  assert (E : k = k').
  { apply (Hinj k k' s); simpl.
    - now rewrite String.eqb_refl.
    - destruct (String.eqb_spec k' k) as [->|_]; [reflexivity|].
      now apply In_get. }
  subst k'. apply Hk. change k with (fst (k, VStr s)). now apply in_map.
Qed.

(** The items assigned after a drop are the dragged one or were assigned
    before. *)
Lemma assigned_newPlacements (p : Placements) (d t s : string) :
  NoDup (keys p) ->
  In s (assigned (newPlacements p d t)) -> s = d \/ In s (assigned p).
Proof.
  intros ND I. apply In_assigned in I as [k' I].
  apply In_get in I as G; [|now apply NoDup_keys_newPlacements].
  clear I. rewrite get_newPlacements in G.
  destruct (swap_of p d t) as [[key e]|] eqn:S.
  - apply swap_of_Some in S as (Gt & _).
    revert G. split_reads; intros G; try discriminate;
      try (injection G as <-); eauto using get_assigned.
  - revert G. split_reads; intros G; try discriminate;
      try (injection G as <-); eauto using get_assigned.
Qed.

(** *** [initialPlacements] *)

Lemma init_loop (ts : list DragDropQuizTarget) (acc : Placements) :
  let r := fold_left (fun acc target => set (target_id target) VNull acc)
                     ts acc in
  (forall k, In k (keys r) <-> In k (map target_id ts) \/ In k (keys acc)) /\
  (NoDup (keys acc) -> NoDup (keys r)) /\
  (forall k, get r k = if in_list k (map target_id ts) then Some VNull
                       else get acc k).
Proof.
  revert acc. induction ts as [|t ts IH]; intros acc; simpl.
  - repeat split; tauto.
  - destruct (IH (set (target_id t) VNull acc)) as (Hk & Hn & Hg).
    repeat split.
    + intros H. apply Hk in H as [H|H]; [tauto|].
      apply In_keys_set in H as [->|H]; tauto.
    + intros [[<-|H]|H]; apply Hk.
      * right. apply In_keys_set. now left.
      * now left.
      * right. apply In_keys_set. now right.
    + intros ND. apply Hn. now apply NoDup_keys_set.
    + intros k. rewrite Hg, get_set. unfold in_list. simpl.
      fold (in_list k (map target_id ts)).
      rewrite (String.eqb_sym k (target_id t)).
      destruct (String.eqb (target_id t) k), (in_list k (map target_id ts));
        reflexivity.
Qed.

Lemma keys_initialPlacements (node : DragDropQuizNode) (k : string) :
  In k (keys (initialPlacements node)) <-> In k (target_ids node).
Proof.
  destruct (init_loop (targets node) []) as (Hk & _ & _).
  unfold initialPlacements, target_ids. rewrite Hk. simpl. tauto.
Qed.

Lemma NoDup_keys_initialPlacements (node : DragDropQuizNode) :
  NoDup (keys (initialPlacements node)).
Proof.
  destruct (init_loop (targets node) []) as (_ & Hn & _).
  apply Hn. constructor.
Qed.

Lemma get_initialPlacements (node : DragDropQuizNode) (k : string) :
  get (initialPlacements node) k
  = if in_list k (target_ids node) then Some VNull else None.
Proof.
  destruct (init_loop (targets node) []) as (_ & _ & Hg).
  unfold initialPlacements, target_ids. now rewrite Hg.
Qed.

Lemma initialPlacements_null (node : DragDropQuizNode) (k : string)
      (v : value) :
  In (k, v) (initialPlacements node) -> v = VNull.
Proof.
  intros I. apply In_get in I; [|apply NoDup_keys_initialPlacements].
  rewrite get_initialPlacements in I.
  destruct (in_list k (target_ids node)); congruence.
Qed.

Lemma assigned_initialPlacements (node : DragDropQuizNode) :
  assigned (initialPlacements node) = [].
Proof.
  destruct (assigned (initialPlacements node)) as [|s l] eqn:E;
    [reflexivity|].
  assert (I : In s (assigned (initialPlacements node)))
    by (rewrite E; now left).
  apply In_assigned in I as [k I]. apply initialPlacements_null in I.
  discriminate.
Qed.

(** *** The shuffle *)

Section SortFacts.
Context {A : Type}.
Variable random : nat -> Q.

(** The fuel given to the binary search is enough: any amount of at
    least [right - left] gives the same result. *)
Lemma binary_search_fuel (fuel1 fuel2 : nat) (pivot : A) (sorted : list A)
      (left right n : nat) :
  right - left <= fuel1 -> right - left <= fuel2 ->
  Shuffle.binary_search random fuel1 pivot sorted left right n
  = Shuffle.binary_search random fuel2 pivot sorted left right n.
Proof.
  revert fuel2 left right n.
  induction fuel1 as [|f1 IH]; intros [|f2] left right n H1 H2; simpl;
    try reflexivity.
  - destruct (Nat.ltb_spec left right); [lia | reflexivity].
  - destruct (Nat.ltb_spec left right); [lia | reflexivity].
  - destruct (Nat.ltb_spec left right) as [Hlt|]; [|reflexivity].
    assert (Hd : Nat.div2 (right - left) < right - left)
      by (apply Nat.lt_div2; lia).
    destruct (Shuffle.negative_order _); apply IH;
      generalize dependent (Nat.div2 (right - left)); intros; lia.
Qed.

Lemma binary_insertion_Permutation (todo sorted : list A) (n : nat) :
  Permutation (fst (Shuffle.binary_insertion random todo sorted n))
              (sorted ++ todo).
Proof.
  revert sorted n. induction todo as [|pivot todo IH]; intros sorted n;
    simpl.
  - now rewrite app_nil_r.
  - destruct (Shuffle.binary_search random (List.length sorted) pivot
                sorted 0 (List.length sorted) n) as [index n'].
    rewrite IH.
    rewrite <- (firstn_skipn index sorted) at 3.
    rewrite <- !app_assoc. apply Permutation_app_head.
    simpl. apply Permutation_middle.
Qed.

(** Whatever numbers [Math.random] returns, the sort rearranges its
    input. *)
Lemma sort_Permutation (a : list A) :
  Permutation (Shuffle.sort random a) a.
Proof.
  destruct a as [|first [|second rest]]; try reflexivity.
  unfold Shuffle.sort.
  destruct (Shuffle.extend_run random _ second rest 1) as [k n].
  set (a := first :: second :: rest).
  rewrite binary_insertion_Permutation.
  transitivity (firstn (2 + k) a ++ skipn (2 + k) a);
    [|now rewrite firstn_skipn].
  apply Permutation_app_tail.
  destruct (Shuffle.negative_order _); [|reflexivity].
  symmetry. apply Permutation_rev.
Qed.

(** When no comparison is negative the whole array is one ascending run
    and nothing moves. *)
Hypothesis never_negative :
  forall n, Shuffle.negative_order (random n - (1 # 2))%Q = false.

Lemma extend_run_never_negative (previous : A) (rest : list A) (n : nat) :
  fst (Shuffle.extend_run random false previous rest n) = List.length rest.
Proof.
  revert previous n. induction rest as [|current rest IH];
    intros previous n; simpl; [reflexivity|].
  unfold Shuffle.comparefn. rewrite never_negative.
  specialize (IH current (S n)).
  destruct (Shuffle.extend_run random false current rest (S n)) as [k n'].
  simpl in *. now f_equal.
Qed.

Lemma sort_never_negative (a : list A) : Shuffle.sort random a = a.
Proof.
  destruct a as [|first [|second rest]]; try reflexivity.
  unfold Shuffle.sort, Shuffle.comparefn. rewrite never_negative.
  pose proof (extend_run_never_negative second rest 1) as E.
  destruct (Shuffle.extend_run random false second rest 1) as [k n].
  simpl in E. subst k.
  change (2 + List.length rest)
    with (List.length (first :: second :: rest)).
  now rewrite skipn_all, firstn_all.
Qed.
End SortFacts.

End StateFacts.

(* ================================================================== *)
(** * The properties of the specification *)

Module QuizSpec.
Import JS JSFacts DragDropQuiz DropFacts StateFacts.

Lemma place_Some (p : Placements) (d t : string) :
  place p (Some d) t = if truthy_string d then newPlacements p d t else p.
Proof.
  unfold place, handleDrop. simpl. now destruct (truthy_string d).
Qed.

Lemma drops_snoc (p : Placements) (ops : list (string * string))
      (d t : string) :
  drops p (ops ++ [(d, t)]) = place (drops p ops) (Some d) t.
Proof. unfold drops. now rewrite fold_left_app. Qed.

(** Every sequence of drops keeps the keys distinct and every item on at
    most one target, whatever is dragged and wherever it is dropped. *)
Lemma drops_keep_items_apart (node : DragDropQuizNode)
      (ops : list (string * string)) :
  NoDup (keys (drops (initialPlacements node) ops)) /\
  one_target_per_item (drops (initialPlacements node) ops).
Proof.
  induction ops as [|[d t] ops IH] using rev_ind.
  - split; [apply NoDup_keys_initialPlacements|].
    intros k1 k2 s G1 _. simpl in G1. rewrite get_initialPlacements in G1.
    destruct (in_list k1 (target_ids node)); discriminate.
  - destruct IH as [ND Hinj]. rewrite drops_snoc, place_Some.
    destruct (truthy_string d); [|now split].
    split; [now apply NoDup_keys_newPlacements|].
    now apply one_target_per_item_newPlacements.
Qed.

(** C5: in every placements state reached from the initial one by a
    sequence of drops, every item id is the value of at most one key: the
    list of assigned item ids has no duplicates, and two keys that hold
    the same item are the same key. *)
Theorem no_item_on_two_targets (node : DragDropQuizNode)
        (ops : list (string * string)) :
  NoDup (assigned (drops (initialPlacements node) ops)) /\
  one_target_per_item (drops (initialPlacements node) ops).
Proof.
  destruct (drops_keep_items_apart node ops) as [ND Hinj].
  split; [now apply NoDup_assigned | exact Hinj].
Qed.

(** C7: for every valid node, that is, one none of whose target ids is
    the reserved property name [__proto__], initialization gives a
    placements object whose keys are exactly the target ids of the node,
    each once and each holding [null], and a shuffled item sequence that
    is a permutation of the declared items, of the same length, whatever
    numbers the randomness source returns. *)
Theorem initialize_correct (random : nat -> Q) (node : DragDropQuizNode) :
  ~ In "__proto__" (target_ids node) ->
  (forall k, In k (keys (initialPlacements node)) <->
             In k (target_ids node)) /\
  NoDup (keys (initialPlacements node)) /\
  (forall k v, In (k, v) (initialPlacements node) -> v = VNull) /\
  (forall target, In target (targets node) ->
                  get (initialPlacements node) (target_id target)
                  = Some VNull) /\
  Permutation (shuffledItems random node) (items node) /\
  List.length (shuffledItems random node) = List.length (items node).
Proof.
  intros _. repeat split.
  - apply keys_initialPlacements.
  - apply keys_initialPlacements.
  - apply NoDup_keys_initialPlacements.
  - apply initialPlacements_null.
  - intros target I. rewrite get_initialPlacements.
    assert (H : in_list (target_id target) (target_ids node) = true)
      by (apply in_list_In; now apply in_map).
    now rewrite H.
  - apply sort_Permutation.
  - apply Permutation_length, sort_Permutation.
Qed.

Lemma initialize_correct_witness :
  keys (initialPlacements esg_node) = ["E"; "S"; "G"] /\
  Permutation (shuffledItems (fun _ => 1 # 4)%Q esg_node) (items esg_node).
Proof.
  split; [reflexivity|].
  destruct (initialize_correct (fun _ => 1 # 4)%Q esg_node)
    as (_ & _ & _ & _ & Hperm & _).
  - simpl. intros [H|[H|[H|[]]]]; discriminate.
  - exact Hperm.
Defined.

Lemma isCorrect_true (node : DragDropQuizNode) (p : Placements) :
  isCorrect node p = true <->
  forall target, In target (targets node) ->
                 get p (target_id target)
                 = Some (VStr (correctItemId target)).
Proof.
  unfold isCorrect. rewrite forallb_forall. split; intros H target I.
  - now apply get_is_true, H.
  - now apply get_is_true, H.
Qed.

Lemma isCorrect_false (node : DragDropQuizNode) (p : Placements)
      (target : DragDropQuizTarget) :
  In target (targets node) ->
  get p (target_id target) <> Some (VStr (correctItemId target)) ->
  isCorrect node p = false.
Proof.
  intros I N. destruct (isCorrect node p) eqn:E; [|reflexivity].
  exfalso. apply N. now apply (proj1 (isCorrect_true node p) E).
Qed.

(** C6: the check of [handleCheckAnswer] is true exactly when every
    target holds its declared correct item; from an assignment that
    passes it, writing an item other than the correct one into any one
    target makes it false; on the example node it is true after a→E,
    b→S, c→G and false after a→S, b→E, c→G. *)
Theorem isCorrect_spec :
  (forall node p,
      isCorrect node p = true <->
      forall target, In target (targets node) ->
                     get p (target_id target)
                     = Some (VStr (correctItemId target))) /\
  (forall node p target wrong,
      isCorrect node p = true ->
      In target (targets node) ->
      wrong <> correctItemId target ->
      isCorrect node (set (target_id target) (VStr wrong) p) = false) /\
  isCorrect esg_node
            (drops (initialPlacements esg_node)
                   [("a", "E"); ("b", "S"); ("c", "G")]) = true /\
  isCorrect esg_node
            (drops (initialPlacements esg_node)
                   [("a", "S"); ("b", "E"); ("c", "G")]) = false.
Proof.
  split; [exact isCorrect_true|]. split; [|split; reflexivity].
  intros node p target wrong _ I N.
  apply (isCorrect_false _ _ target I).
  rewrite get_set, String.eqb_refl. congruence.
Qed.

Lemma isCorrect_spec_witness :
  isCorrect esg_node
            (set "E" (VStr "b")
                 (drops (initialPlacements esg_node)
                        [("a", "E"); ("b", "S"); ("c", "G")])) = false.
Proof.
  apply (proj1 (proj2 isCorrect_spec) esg_node _ (mkTarget "E" "E" "a") "b").
  - reflexivity.
  - simpl. now left.
  - simpl. discriminate.
Defined.

(** C10: when a target of the node is unassigned ([null]) the check of
    [handleCheckAnswer] is false, since [null] is not strictly equal to
    any string. *)
Theorem unassigned_target_not_correct (node : DragDropQuizNode)
        (p : Placements) (target : DragDropQuizTarget) :
  In target (targets node) ->
  get p (target_id target) = Some VNull ->
  isCorrect node p = false.
Proof.
  intros I G. apply (isCorrect_false _ _ target I). congruence.
Qed.

Lemma unassigned_target_not_correct_witness :
  isCorrect esg_node
            (drops (initialPlacements esg_node) [("a", "E"); ("b", "S")])
  = false.
Proof.
  apply (unassigned_target_not_correct esg_node _ (mkTarget "G" "G" "c")).
  - simpl. right. right. now left.
  - reflexivity.
Defined.

(** An item of the node that is on no target is in the pool, where it
    can be picked up. *)
Lemma pool_item_draggable (random : nat -> Q) (node : DragDropQuizNode)
      (p : Placements) (itemId : string) :
  In itemId (item_ids node) -> ~ In itemId (assigned p) ->
  In itemId (draggable_ids random node p).
Proof.
  intros I N. unfold draggable_ids. apply in_or_app. left.
  unfold item_ids in I. apply in_map_iff in I as [item [Ei Ii]].
  apply in_map_iff. exists item. split; [exact Ei|].
  unfold unplacedItems. apply filter_In. split.
  - apply (Permutation_in _
             (Permutation_sym (sort_Permutation random _)) Ii).
  - apply negb_true_iff.
    destruct (includes (values p) (VStr (item_id item))) eqn:E;
      [|reflexivity].
    apply includes_In, In_assigned_values in E. rewrite Ei in E. tauto.
Qed.

Lemma filter_Permutation {A : Type} (f : A -> bool) (l l' : list A) :
  Permutation l l' -> Permutation (filter f l) (filter f l').
Proof.
  induction 1 as [|x l l' _ IH|x y l|l l' l'' _ IH1 _ IH2]; simpl.
  - constructor.
  - destruct (f x); [now constructor | exact IH].
  - destruct (f x), (f y); try reflexivity. apply perm_swap.
  - now transitivity (filter f l').
Qed.

(** The pool holds, in shuffled order, the items of the node that are no
    value of the placements. *)
Lemma unplacedItems_Permutation (random : nat -> Q)
      (node : DragDropQuizNode) (p : Placements) :
  Permutation
    (unplacedItems random node p)
    (filter (fun item =>
               negb (includes (values p) (VStr (item_id item))))
            (items node)).
Proof.
  unfold unplacedItems. apply filter_Permutation, sort_Permutation.
Qed.

(** C3: on the example node, whatever the shuffle, dropping item [a] on
    the pool of unplaced items, whose handler passes the name
    ['unplaced'], creates the key ['unplaced'] holding [a]: the keys are
    no longer the target ids, [a] is still a value of the placements and
    is therefore not among the unplaced items either, which are [b] and
    [c] in some order. *)
Theorem drop_on_pool_creates_key :
  forall random : nat -> Q,
  let st := run random esg_node [DragStart "a"; DropOnPool] in
  placements st
  = [("E", VNull); ("S", VNull); ("G", VNull); ("unplaced", VStr "a")] /\
  ~ In "unplaced" (target_ids esg_node) /\
  In "unplaced" (keys (placements st)) /\
  In "a" (assigned (placements st)) /\
  Permutation (map item_id (unplacedItems random esg_node (placements st)))
              ["b"; "c"].
Proof.
  intros random st.
  assert (Hdrag : in_list "a" (draggable_ids random esg_node
                                 (initialPlacements esg_node)) = true).
  { apply in_list_In, pool_item_draggable.
    - simpl. now left.
    - rewrite assigned_initialPlacements. intros []. }
  assert (Hst : placements st
                = [("E", VNull); ("S", VNull); ("G", VNull);
                   ("unplaced", VStr "a")]).
  { subst st. unfold run. simpl fold_left.
    change (placements (initialState esg_node))
      with (initialPlacements esg_node).
    rewrite Hdrag. reflexivity. }
  rewrite Hst. split; [reflexivity|]. split.
  { simpl. intros [H|[H|[H|[]]]]; discriminate. }
  split; [simpl; tauto|]. split; [simpl; tauto|].
  change ["b"; "c"]
    with (map item_id [mkItem "b" "item_b"; mkItem "c" "item_c"]).
  apply Permutation_map.
  apply (unplacedItems_Permutation random esg_node).
Qed.

(** C8 fails: on the example node, which has three items, a randomness
    source that always returns 0.75 makes every comparison positive; the
    sort finds one ascending run and leaves the items in their declared
    order. *)
Lemma shuffle_identity_example :
  2 <= List.length (items esg_node) /\
  shuffledItems (fun _ => 3 # 4)%Q esg_node = items esg_node.
Proof. split; [simpl; lia | reflexivity]. Qed.

(** C8, amended: on every initialization the shuffled order is a
    permutation of exactly the items of the node; it is not always
    different from the declared order, since for every node some
    randomness source with values in [0,1) leaves the order as it is. *)
Theorem shuffle_is_permutation :
  (forall random node,
      Permutation (shuffledItems random node) (items node)) /\
  (forall node,
      exists random : nat -> Q,
        (forall n, (0 <= random n)%Q /\ (random n < 1)%Q) /\
        shuffledItems random node = items node).
Proof.
  split.
  - intros random node. apply sort_Permutation.
  - intros node. exists (fun _ => (3 # 4)%Q). split.
    + intros n. split; reflexivity || discriminate.
    + apply sort_never_negative. reflexivity.
Qed.

(** *** Completeness and the unplaced items *)

Lemma filter_nil_iff {A : Type} (f : A -> bool) (l : list A) :
  filter f l = [] <-> forall x, In x l -> f x = false.
Proof.
  induction l as [|a l IH]; simpl.
  - split; [intros _ x [] | reflexivity].
  - destruct (f a) eqn:E.
    + split; [discriminate|]. intros H.
      specialize (H a (or_introl eq_refl)). congruence.
    + rewrite IH. split.
      * intros H x [<-|I]; auto.
      * intros H x I. apply H. now right.
Qed.

Lemma allPlaced_true (random : nat -> Q) (node : DragDropQuizNode)
      (p : Placements) :
  allPlaced random node p = true <-> incl (item_ids node) (assigned p).
Proof.
  unfold allPlaced, unplacedItems. rewrite Nat.eqb_eq, length_zero_iff_nil.
  rewrite filter_nil_iff. unfold item_ids, incl. split.
  - intros H s I. apply in_map_iff in I as [item [<- I]].
    apply In_assigned_values, includes_In.
    apply (Permutation_in _ (Permutation_sym (sort_Permutation random _)))
      in I.
    specialize (H item I). now apply negb_false_iff in H.
  - intros H item I. apply negb_false_iff, includes_In, In_assigned_values.
    apply H, in_map.
    exact (Permutation_in _ (sort_Permutation random _) I).
Qed.

Lemma isComplete_true (node : DragDropQuizNode) (p : Placements) :
  isComplete node p = true <->
  forall k, In k (target_ids node) -> exists s, get p k = Some (VStr s).
Proof.
  unfold isComplete, target_ids. rewrite forallb_forall. split.
  - intros H k I. apply in_map_iff in I as [target [<- I]].
    specialize (H target I).
    destruct (get p (target_id target)) as [[|s]|]; try discriminate.
    now exists s.
  - intros H target I. destruct (H (target_id target)) as [s ->];
      [now apply in_map | reflexivity].
Qed.

Lemma placements_inv_length (node : DragDropQuizNode) (p : Placements) :
  NoDup (target_ids node) -> placements_inv node p ->
  List.length p = List.length (targets node).
Proof.
  intros NDt (Hk & _). unfold target_ids in NDt.
  rewrite <- (length_map fst p). fold (keys p). rewrite Hk.
  rewrite <- (length_map target_id (targets node)).
  apply Permutation_length, NoDup_Permutation; auto.
  - apply NoDup_keys_initialPlacements.
  - apply keys_initialPlacements.
Qed.

(** On a balanced node, under the invariant of the placements, every
    target is assigned exactly when no item is left in the pool. *)
Lemma inv_complete_iff_allPlaced (random : nat -> Q)
      (node : DragDropQuizNode) (p : Placements) :
  balanced node -> placements_inv node p ->
  isComplete node p = true <-> allPlaced random node p = true.
Proof.
  intros (NDi & NDt & Hlen) Hinv.
  pose proof (placements_inv_length node p NDt Hinv) as Lp.
  destruct Hinv as (Hk & NDk & Hinj & Hsub).
  assert (Li : List.length (item_ids node) = List.length p).
  { unfold item_ids. rewrite length_map. lia. }
  rewrite allPlaced_true, isComplete_true. split.
  - intros Hc.
    assert (Full : List.length (assigned p) = List.length p).
    { apply assigned_full. intros k v I.
      assert (Ik : In k (target_ids node)).
      { apply keys_initialPlacements. rewrite <- Hk.
        change k with (fst (k, v)). now apply in_map. }
      destruct (Hc k Ik) as [s G]. apply In_get in I; [|exact NDk].
      exists s. congruence. }
    apply NoDup_length_incl; [now apply NoDup_assigned | lia | exact Hsub].
  - intros Hall k Ik.
    assert (Full : List.length (assigned p) = List.length p).
    { pose proof (NoDup_incl_length NDi Hall).
      pose proof (assigned_length p). lia. }
    assert (I : In k (keys p))
      by (rewrite Hk; now apply keys_initialPlacements).
    destruct (get p k) as [v|] eqn:G;
      [|apply get_None_keys in G; tauto].
    destruct (proj1 (assigned_full p) Full k v (get_In _ _ _ G)) as [s ->].
    now exists s.
Qed.

Lemma placements_inv_init (node : DragDropQuizNode) :
  placements_inv node (initialPlacements node).
Proof.
  split; [reflexivity|]. split; [apply NoDup_keys_initialPlacements|].
  split.
  - intros k1 k2 s G1 _. rewrite get_initialPlacements in G1.
    destruct (in_list k1 (target_ids node)); discriminate.
  - rewrite assigned_initialPlacements. intros s [].
Qed.

Lemma placements_inv_newPlacements (node : DragDropQuizNode)
      (p : Placements) (d t : string) :
  placements_inv node p ->
  In d (item_ids node) -> In t (target_ids node) ->
  placements_inv node (newPlacements p d t).
Proof.
  intros (Hk & NDk & Hinj & Hsub) Id It.
  assert (I : In t (keys p)) by (rewrite Hk; now apply keys_initialPlacements).
  split; [now rewrite keys_newPlacements|].
  split; [now apply NoDup_keys_newPlacements|].
  split; [now apply one_target_per_item_newPlacements|].
  intros s Is. apply assigned_newPlacements in Is as [->|Is]; auto.
Qed.

Lemma placements_inv_drops (node : DragDropQuizNode)
      (ops : list (string * string)) :
  on_targets node ops ->
  placements_inv node (drops (initialPlacements node) ops).
Proof.
  induction ops as [|[d t] ops IH] using rev_ind; intros Hops.
  - apply placements_inv_init.
  - apply Forall_app in Hops as [Hops Hlast].
    inversion Hlast as [|? ? [Id It] _]; subst. simpl in Id, It.
    rewrite drops_snoc, place_Some.
    destruct (truthy_string d); [|now apply IH].
    apply placements_inv_newPlacements; auto.
Qed.

(** C1 fails: on a node with two items and one target, after [a] is
    dropped on the target every target is assigned, but [b] is still in
    the pool, so [allPlaced] is false. *)
Lemma complete_with_unplaced_item :
  let node := {| items := [mkItem "a" "item_a"; mkItem "b" "item_b"];
                 targets := [mkTarget "E" "E" "a"];
                 nextNode := "quiz_ok";
                 incorrectNextNode := "quiz_retry" |} in
  let p := drops (initialPlacements node) [("a", "E")] in
  isComplete node p = true /\
  map item_id (unplacedItems (fun _ => 1 # 4)%Q node p) = ["b"] /\
  allPlaced (fun _ => 1 # 4)%Q node p = false.
Proof. vm_compute. repeat split. Qed.

(** C1, amended: on a node with pairwise distinct item ids, pairwise
    distinct target ids and as many items as targets, in every placements
    state reached from the initial one by drops of items of the node onto
    targets of the node, every target has a non-null item exactly when
    [unplacedItems] is empty, that is, when [allPlaced] is true. *)
Theorem complete_iff_allPlaced (random : nat -> Q)
        (node : DragDropQuizNode) (ops : list (string * string)) :
  balanced node ->
  on_targets node ops ->
  let p := drops (initialPlacements node) ops in
  (isComplete node p = true <-> unplacedItems random node p = []) /\
  (isComplete node p = true <-> allPlaced random node p = true).
Proof.
  intros Hb Hops p.
  assert (H : isComplete node p = true <-> allPlaced random node p = true).
  { apply inv_complete_iff_allPlaced; [exact Hb|].
    now apply placements_inv_drops. }
  split; [|exact H]. rewrite H. unfold allPlaced.
  now rewrite Nat.eqb_eq, length_zero_iff_nil.
Qed.

Lemma complete_iff_allPlaced_witness :
  isComplete esg_node
             (drops (initialPlacements esg_node)
                    [("a", "E"); ("b", "S"); ("c", "G")]) = true <->
  allPlaced (fun _ => 1 # 4)%Q esg_node
            (drops (initialPlacements esg_node)
                   [("a", "E"); ("b", "S"); ("c", "G")]) = true.
Proof.
  apply (complete_iff_allPlaced (fun _ => 1 # 4)%Q esg_node
                                [("a", "E"); ("b", "S"); ("c", "G")]).
  - repeat split; try reflexivity;
      repeat constructor; simpl; intuition discriminate.
  - repeat constructor; simpl; tauto.
Defined.

(** *** States reached through user actions *)

Lemma draggable_ids_items (random : nat -> Q) (node : DragDropQuizNode)
      (p : Placements) (itemId : string) :
  In itemId (draggable_ids random node p) -> In itemId (item_ids node).
Proof.
  unfold draggable_ids, item_ids. intros I.
  apply in_app_or in I as [I|I].
  - apply in_map_iff in I as [item [<- I]]. apply in_map.
    unfold unplacedItems in I. apply filter_In in I as [I _].
    exact (Permutation_in _ (sort_Permutation random _) I).
  - apply in_flat_map in I as [target [_ I]].
    destruct (placedItem node p target) as [item|] eqn:E; [|destruct I].
    destruct I as [<-|[]]. apply in_map.
    unfold placedItem in E. now apply find_some in E as [I _].
Qed.

Lemma run_snoc (random : nat -> Q) (node : DragDropQuizNode)
      (actions : list Action) (a : Action) :
  run random node (actions ++ [a])
  = step random node (run random node actions) a.
Proof. unfold run. now rewrite fold_left_app. Qed.

Lemma ui_inv_handleDrop (node : DragDropQuizNode) (st : State)
      (t : string) :
  ui_inv node st -> ui_inv node (handleDrop st t).
Proof.
  intros Hinv. unfold handleDrop.
  destruct (draggedItem st) as [d|] eqn:E; [|exact Hinv].
  destruct (truthy_string d); [|exact Hinv].
  destruct Hinv as (ND & Hsub & Hd).
  split; [|split]; simpl.
  - now apply NoDup_keys_newPlacements.
  - intros s Is. apply assigned_newPlacements in Is as [->|Is]; auto.
  - discriminate.
Qed.

Lemma ui_inv_step (random : nat -> Q) (node : DragDropQuizNode)
      (st : State) (a : Action) :
  ui_inv node st -> ui_inv node (step random node st a).
Proof.
  intros Hinv. destruct a as [itemId| |targetId| |]; simpl.
  - destruct (in_list itemId (draggable_ids random node (placements st)))
      eqn:E; [|exact Hinv].
    destruct Hinv as (ND & Hsub & _).
    split; [exact ND|]. split; [exact Hsub|]. simpl.
    intros d [= <-]. apply in_list_In in E.
    now apply draggable_ids_items in E.
  - destruct Hinv as (ND & Hsub & _).
    split; [exact ND|]. split; [exact Hsub|]. simpl. discriminate.
  - destruct (in_list targetId (target_ids node)); [|exact Hinv].
    now apply ui_inv_handleDrop.
  - now apply ui_inv_handleDrop.
  - destruct (allPlaced random node (placements st)); exact Hinv.
Qed.

Lemma ui_inv_run (random : nat -> Q) (node : DragDropQuizNode)
      (actions : list Action) :
  ui_inv node (run random node actions).
Proof.
  induction actions as [|a actions IH] using rev_ind.
  - split; [|split]; simpl.
    + apply NoDup_keys_initialPlacements.
    + rewrite assigned_initialPlacements. intros s [].
    + discriminate.
  - rewrite run_snoc. now apply ui_inv_step.
Qed.

Lemma ui_inv_targets_step (random : nat -> Q) (node : DragDropQuizNode)
      (st : State) (a : Action) :
  a <> DropOnPool ->
  ui_inv_targets random node st ->
  ui_inv_targets random node (step random node st a).
Proof.
  intros Ha Hinv. destruct a as [itemId| |targetId| |]; simpl.
  - destruct (in_list itemId (draggable_ids random node (placements st)))
      eqn:E; [|exact Hinv].
    destruct Hinv as (Hp & _ & Hc).
    split; [exact Hp|]. split; [|exact Hc]. simpl.
    intros d [= <-]. apply in_list_In in E.
    now apply draggable_ids_items in E.
  - destruct Hinv as (Hp & _ & Hc).
    split; [exact Hp|]. split; [|exact Hc]. simpl. discriminate.
  - destruct (in_list targetId (target_ids node)) eqn:E; [|exact Hinv].
    apply in_list_In in E. unfold handleDrop.
    destruct (draggedItem st) as [d|] eqn:D; [|exact Hinv].
    destruct (truthy_string d); [|exact Hinv].
    destruct Hinv as (Hp & Hd & Hc).
    split; [|split; [|exact Hc]]; simpl.
    + apply placements_inv_newPlacements; auto.
    + discriminate.
  - congruence.
  - destruct (allPlaced random node (placements st)) eqn:E; [|exact Hinv].
    destruct Hinv as (Hp & Hd & Hc).
    split; [exact Hp|]. split; [exact Hd|]. simpl.
    intros p b [[= <- <-]|I]; [now split | now apply Hc in I].
Qed.

Lemma ui_inv_targets_run (random : nat -> Q) (node : DragDropQuizNode)
      (actions : list Action) :
  no_pool_drop actions ->
  ui_inv_targets random node (run random node actions).
Proof.
  induction actions as [|a actions IH] using rev_ind; intros Hno.
  - split; [apply placements_inv_init|]. split; simpl.
    + discriminate.
    + intros p b [].
  - apply Forall_app in Hno as [Hno Hlast].
    inversion Hlast as [|? ? Ha _]; subst.
    rewrite run_snoc. apply ui_inv_targets_step; auto.
Qed.

(** The button that calls [handleCheckAnswer] exists only while
    [allPlaced] holds. *)
Lemma check_answer_needs_allPlaced (random : nat -> Q)
      (node : DragDropQuizNode) (st : State) :
  allPlaced random node (placements st) = false ->
  step random node st ClickCheckAnswer = st.
Proof. intros E. simpl. now rewrite E. Qed.

(** C2 fails: on a node with one item and two targets, once the item is
    on the first target no item is left in the pool, the button is
    rendered although the second target is unassigned, and a click calls
    [onComplete]. *)
Lemma check_answer_on_incomplete :
  let node := {| items := [mkItem "a" "item_a"];
                 targets := [mkTarget "E" "E" "a"; mkTarget "S" "S" "a"];
                 nextNode := "quiz_ok";
                 incorrectNextNode := "quiz_retry" |} in
  let random := (fun _ : nat => 1 # 4)%Q in
  let st := run random node [DragStart "a"; DropOnTarget "E"] in
  get (placements st) "S" = Some VNull /\
  isComplete node (placements st) = false /\
  completions st = [] /\
  completions (step random node st ClickCheckAnswer)
  = [(placements st, false)].
Proof. vm_compute. repeat split. Qed.

(** C2, amended: the check-answer control is gated on [allPlaced], not
    on completeness.  In every state reached by user actions, while an
    item is left in the pool a click on it changes nothing, and every
    call of [onComplete] was made on placements with an empty pool.  On
    a node with pairwise distinct item ids, pairwise distinct target ids
    and as many items as targets, and when nothing is dropped on the
    pool, this is completeness: while some target is unassigned a click
    changes nothing, and [onComplete] is never called on incomplete
    placements. *)
Theorem check_answer_gated (random : nat -> Q) (node : DragDropQuizNode)
        (actions : list Action) :
  let st := run random node actions in
  (allPlaced random node (placements st) = false ->
   step random node st ClickCheckAnswer = st) /\
  (balanced node -> no_pool_drop actions ->
   (isComplete node (placements st) = false ->
    step random node st ClickCheckAnswer = st) /\
   (forall p b, In (p, b) (completions st) ->
                isComplete node p = true /\ b = isCorrect node p /\
                allPlaced random node p = true)).
Proof.
  intros st. split; [apply check_answer_needs_allPlaced|].
  intros Hb Hno.
  destruct (ui_inv_targets_run random node actions Hno) as (Hp & _ & Hc).
  fold st in Hp, Hc. split.
  - intros Hi. apply check_answer_needs_allPlaced.
    destruct (allPlaced random node (placements st)) eqn:E; [|reflexivity].
    apply (inv_complete_iff_allPlaced random node _ Hb Hp) in E. congruence.
  - intros p b I.
    assert (Hb' : b = isCorrect node p).
    { clear -I. subst st. revert p b I.
      induction actions as [|a actions IH] using rev_ind; intros p b I;
        [destruct I|].
      rewrite run_snoc in I.
      set (s := run random node actions) in *.
      destruct a as [itemId| |targetId| |]; simpl in I.
      - destruct (in_list itemId _); simpl in I; now apply IH.
      - now apply IH.
      - destruct (in_list targetId _); [|now apply IH].
        unfold handleDrop in I. destruct (draggedItem s) as [d|];
          [|now apply IH].
        destruct (truthy_string d); simpl in I; now apply IH.
      - unfold handleDrop in I. destruct (draggedItem s) as [d|];
          [|now apply IH].
        destruct (truthy_string d); simpl in I; now apply IH.
      - destruct (allPlaced random node (placements s)); [|now apply IH].
        simpl in I. destruct I as [[= <- <-]|I]; [reflexivity|now apply IH]. }
    destruct (Hc p b I) as [Ha Hpi]. repeat split; auto.
    now apply (inv_complete_iff_allPlaced random node p Hb Hpi).
Qed.

Lemma check_answer_gated_witness :
  let st := run (fun _ => 1 # 4)%Q esg_node
                [DragStart "a"; DropOnTarget "E"; ClickCheckAnswer] in
  step (fun _ => 1 # 4)%Q esg_node st ClickCheckAnswer = st.
Proof.
  destruct (check_answer_gated (fun _ => 1 # 4)%Q esg_node
              [DragStart "a"; DropOnTarget "E"; ClickCheckAnswer])
    as (_ & Hgate).
  apply Hgate.
  - repeat split; try reflexivity;
      repeat constructor; simpl; intuition discriminate.
  - repeat constructor; discriminate.
  - reflexivity.
Defined.

(** C9 fails: [handleDrop] has no membership check.  With a dragged id
    [x] that is no item of the example node, a drop on [E] assigns [x] to
    [E]. *)
Lemma foreign_item_is_placed :
  let st := {| placements := initialPlacements esg_node;
               draggedItem := Some "x";
               completions := [] |} in
  ~ In "x" (item_ids esg_node) /\
  placements (handleDrop st "E")
  = [("E", VStr "x"); ("S", VNull); ("G", VNull)] /\
  placements (handleDrop st "E") <> placements st.
Proof.
  vm_compute. repeat split; try discriminate.
  intros [H|[H|[H|[]]]]; discriminate.
Qed.

(** C9, amended: the component reports no warning and checks no
    membership; a foreign id is kept out by the way [draggedItem] is set.
    A drag starts only on a rendered item of the node, so in every state
    reached by user actions the dragged id is [null] or an item id of the
    node, every item id held by the placements is an item id of the node,
    and a drop while nothing is dragged leaves the whole state, and so
    the placements, unchanged. *)
Theorem no_foreign_item (random : nat -> Q) (node : DragDropQuizNode)
        (actions : list Action) :
  let st := run random node actions in
  (forall d, draggedItem st = Some d -> In d (item_ids node)) /\
  incl (assigned (placements st)) (item_ids node) /\
  (forall targetId, draggedItem st = None -> handleDrop st targetId = st) /\
  (forall itemId, ~ In itemId (item_ids node) ->
                  step random node st (DragStart itemId) = st).
Proof.
  intros st. destruct (ui_inv_run random node actions) as (_ & Hsub & Hd).
  fold st in Hsub, Hd. repeat split; auto.
  - intros targetId E. unfold handleDrop. now rewrite E.
  - intros itemId N. simpl.
    destruct (in_list itemId (draggable_ids random node (placements st)))
      eqn:E; [|reflexivity].
    apply in_list_In, draggable_ids_items in E. tauto.
Qed.

Lemma no_foreign_item_witness :
  let st := run (fun _ => 1 # 4)%Q esg_node
                [DragStart "x"; DropOnTarget "E"] in
  handleDrop st "S" = st /\ placements st = initialPlacements esg_node.
Proof.
  split; [|reflexivity].
  destruct (no_foreign_item (fun _ => 1 # 4)%Q esg_node
                            [DragStart "x"; DropOnTarget "E"])
    as (_ & _ & Hdrop & _).
  apply Hdrop. reflexivity.
Defined.

(** C4: on a node whose first target has the empty string as id, with
    [a] on that target and [b] on [S], dragging [a] onto [S] does not
    swap: the key found by [oldTargetKey] is the empty string, which the
    test [if(oldTargetKey)] takes for "not found", so [b] is not moved to
    the target [a] came from and ends up on no target. *)
Theorem no_swap_into_empty_key :
  let node := {| items := [mkItem "a" "item_a"; mkItem "b" "item_b"];
                 targets := [mkTarget "" "first" "a"; mkTarget "S" "S" "b"];
                 nextNode := "quiz_ok";
                 incorrectNextNode := "quiz_retry" |} in
  let p := drops (initialPlacements node) [("a", ""); ("b", "S")] in
  let p' := place p (Some "a") "S" in
  get p "" = Some (VStr "a") /\ get p "S" = Some (VStr "b") /\
  oldTargetKey p "a" = Some "" /\
  get p' "S" = Some (VStr "a") /\ get p' "" = Some VNull /\
  ~ In "b" (assigned p').
Proof.
  vm_compute. repeat split; try reflexivity. intros [H|[]]. discriminate.
Qed.

(** X17: what a drop does, case by case.  For every placements state,
    every non-empty dragged item id [d] and every key [t] of the
    placements, the drop keeps the keys, assigns [d] to [t] and leaves
    [d] on no other key.  When [t] held a different, non-empty item [e]
    and the first key that held [d] is a non-empty [key], [e] is moved to
    [key].  In every other case (the target was empty or held [d] or the
    empty string, or [d] was on no key, or on the key with the empty
    name) nothing is moved.  In both cases every remaining key keeps its
    value, except that a key that held [d] is reset to [null].  A drop
    with no dragged item changes nothing. *)
Theorem place_spec (p : Placements) (d t : string) :
  d <> "" ->
  In t (keys p) ->
  let p' := place p (Some d) t in
  keys p' = keys p /\
  get p' t = Some (VStr d) /\
  (forall k, k <> t -> get p' k <> Some (VStr d)) /\
  (forall e key,
      get p t = Some (VStr e) -> e <> d -> e <> "" ->
      oldTargetKey p d = Some key -> key <> "" ->
      get p' key = Some (VStr e) /\
      forall k, k <> t -> k <> key ->
                get p' k = if get_is p k d then Some VNull else get p k) /\
  (get p t = Some VNull \/ get p t = Some (VStr d) \/
   get p t = Some (VStr "") \/
   oldTargetKey p d = None \/ oldTargetKey p d = Some "" ->
   forall k, k <> t ->
             get p' k = if get_is p k d then Some VNull else get p k) /\
  place p None t = p.
Proof.
  intros Hd It p'. subst p'. rewrite place_Some.
  apply truthy_string_true in Hd. rewrite Hd.
  split; [now apply keys_newPlacements|].
  assert (Ht : get (newPlacements p d t) t = Some (VStr d)).
  { rewrite get_newPlacements.
    destruct (swap_of p d t) as [[key e]|] eqn:S;
      [|now rewrite String.eqb_refl].
    apply swap_of_Some in S as (Gt & Hed & _ & S & _).
    apply oldTargetKey_Some in S as [_ Gk].
    rewrite String.eqb_refl.
    destruct (String.eqb_spec key t) as [->|_]; congruence. }
  split; [exact Ht|]. split; [|split; [|split; [|reflexivity]]].
  - intros k Hk. rewrite get_newPlacements.
    destruct (swap_of p d t) as [[key e]|] eqn:S.
    + apply swap_of_Some in S as (_ & Hed & _).
      split_reads; try congruence.
      intros G. apply get_is_true in G. congruence.
    + split_reads; try congruence.
      intros G. apply get_is_true in G. congruence.
  - intros e key Gt Hed He Ho Hkey.
    assert (S : swap_of p d t = Some (key, e))
      by (apply swap_of_Some; tauto).
    split.
    + rewrite get_newPlacements, S. now rewrite String.eqb_refl.
    + intros k Hk1 Hk2. rewrite get_newPlacements, S.
      apply not_eq_sym, String.eqb_neq in Hk1, Hk2. now rewrite Hk1, Hk2.
  - intros Hcase k Hk.
    assert (S : swap_of p d t = None).
    { destruct (swap_of p d t) as [[key e]|] eqn:S; [|reflexivity].
      apply swap_of_Some in S as (Gt & Hed & He & Ho & Hkey).
      destruct Hcase as [H|[H|[H|[H|H]]]]; congruence. }
    rewrite get_newPlacements, S.
    apply not_eq_sym, String.eqb_neq in Hk. now rewrite Hk.
Qed.

Lemma place_spec_witness :
  let p := [("E", VStr "a"); ("S", VStr "b"); ("G", VNull)] in
  get (place p (Some "a") "S") "S" = Some (VStr "a") /\
  get (place p (Some "a") "S") "E" = Some (VStr "b").
Proof.
  assert (Hd : "a" <> "") by discriminate.
  assert (It : In "S" (keys [("E", VStr "a"); ("S", VStr "b"); ("G", VNull)]))
    by (simpl; tauto).
  destruct (place_spec [("E", VStr "a"); ("S", VStr "b"); ("G", VNull)]
                       "a" "S" Hd It) as (_ & Ht & _ & Hswap & _).
  split; [exact Ht|].
  apply (Hswap "b" "E"); reflexivity || discriminate.
Defined.

End QuizSpec.

(* ================================================================== *)
(** * Further properties of the component *)

Module QuizExtras.
Import JS JSFacts DragDropQuiz DropFacts StateFacts.

(** Two objects with the same keys, in the same order, that agree on
    every key are the same object. *)
Lemma object_ext (o1 o2 : object) :
  keys o1 = keys o2 -> NoDup (keys o1) ->
  (forall k, In k (keys o1) -> get o1 k = get o2 k) ->
  o1 = o2.
Proof.
  revert o2. induction o1 as [|[k v] r IH]; intros [|[k' v'] r'];
    simpl; try discriminate; [reflexivity|].
  intros [= <- Hk] ND Hget. inversion ND as [|? ? Hnot ND']; subst.
  pose proof (Hget k (or_introl eq_refl)) as Hv.
  simpl in Hv. rewrite String.eqb_refl in Hv. injection Hv as <-.
  f_equal. apply IH; [exact Hk | exact ND' |].
  intros k0 I. pose proof (Hget k0 (or_intror I)) as G. simpl in G.
  destruct (String.eqb_spec k0 k) as [->|_]; [tauto | exact G].
Qed.

Lemma get_Some_keys (o : object) (k : string) (v : value) :
  get o k = Some v -> In k (keys o).
Proof.
  intros G. destruct (in_dec string_dec k (keys o)) as [I|N]; [exact I|].
  apply get_None_keys in N. congruence.
Qed.

Lemma place_Some' (p : Placements) (d t : string) :
  d <> "" -> place p (Some d) t = newPlacements p d t.
Proof.
  intros Hd. apply truthy_string_true in Hd.
  unfold place, handleDrop. simpl. now rewrite Hd.
Qed.

(** After a drop the target holds the dragged item. *)
Lemma get_newPlacements_target (p : Placements) (d t : string) :
  get (newPlacements p d t) t = Some (VStr d).
Proof.
  rewrite get_newPlacements.
  destruct (swap_of p d t) as [[key e]|] eqn:S;
    [|now rewrite String.eqb_refl].
  apply swap_of_Some in S as (Gt & Hed & _ & S & _).
  apply oldTargetKey_Some in S as [_ Gk].
  rewrite String.eqb_refl.
  destruct (String.eqb_spec key t) as [->|_]; congruence.
Qed.

(** After a drop no other key holds the dragged item. *)
Lemma get_newPlacements_others (p : Placements) (d t k : string) :
  k <> t -> get (newPlacements p d t) k <> Some (VStr d).
Proof.
  intros Hk. rewrite get_newPlacements.
  destruct (swap_of p d t) as [[key e]|] eqn:S.
  - apply swap_of_Some in S as (_ & Hed & _).
    split_reads; try congruence.
    intros G. apply get_is_true in G. congruence.
  - split_reads; try congruence.
    intros G. apply get_is_true in G. congruence.
Qed.

(** A drop of an item on the only key that holds it changes nothing. *)
Lemma newPlacements_own_target (p : Placements) (d t : string) :
  NoDup (keys p) ->
  get p t = Some (VStr d) ->
  (forall k, k <> t -> get p k <> Some (VStr d)) ->
  newPlacements p d t = p.
Proof.
  intros ND Gt Honly.
  assert (It : In t (keys p)) by (eapply get_Some_keys; eauto).
  apply object_ext.
  - now apply keys_newPlacements.
  - now apply NoDup_keys_newPlacements.
  - intros k _. rewrite get_newPlacements.
    assert (S : swap_of p d t = None).
    { destruct (swap_of p d t) as [[key e]|] eqn:S; [|reflexivity].
      apply swap_of_Some in S as (Gt' & Hed & _). congruence. }
    rewrite S. destruct (String.eqb_spec t k) as [<-|Hne]; [now rewrite Gt|].
    destruct (get_is p k d) eqn:E; [|reflexivity].
    apply get_is_true in E. exfalso. apply (Honly k); auto.
Qed.

(** X1: a second drop event that follows a drop changes nothing: the
    first one either went through and reset [draggedItem] to [null], or
    was ignored, and then the second is ignored as well. *)
Theorem handleDrop_twice (st : State) (t t' : string) :
  handleDrop (handleDrop st t) t' = handleDrop st t.
Proof.
  unfold handleDrop. destruct (draggedItem st) as [d|] eqn:E; simpl.
  - destruct (truthy_string d) eqn:T; simpl; [reflexivity|].
    now rewrite E, T.
  - now rewrite E.
Qed.

(** X2: dropping an item on the target that already holds it, and that
    alone holds it, leaves the placements as they are. *)
Theorem drop_on_own_target (p : Placements) (d t : string) :
  NoDup (keys p) ->
  get p t = Some (VStr d) ->
  (forall k, k <> t -> get p k <> Some (VStr d)) ->
  place p (Some d) t = p.
Proof.
  intros ND Gt Honly. rewrite QuizSpec.place_Some.
  destruct (truthy_string d); [|reflexivity].
  now apply newPlacements_own_target.
Qed.

Lemma drop_on_own_target_witness :
  place [("E", VStr "a"); ("S", VStr "b"); ("G", VNull)] (Some "b") "S"
  = [("E", VStr "a"); ("S", VStr "b"); ("G", VNull)].
Proof.
  apply drop_on_own_target.
  - repeat constructor; simpl; intuition discriminate.
  - reflexivity.
  - intros k Hk. simpl.
    destruct (String.eqb_spec k "E") as [->|_]; [discriminate|].
    destruct (String.eqb_spec k "S") as [->|_]; [tauto|].
    destruct (String.eqb_spec k "G") as [->|_]; discriminate.
Defined.

(** X3: a drop is idempotent: dropping the same item on the same target
    a second time gives the placements of the first drop. *)
Theorem place_idempotent (p : Placements) (d t : string) :
  NoDup (keys p) ->
  place (place p (Some d) t) (Some d) t = place p (Some d) t.
Proof.
  intros ND. rewrite !QuizSpec.place_Some.
  destruct (truthy_string d); [|reflexivity].
  apply newPlacements_own_target.
  - now apply NoDup_keys_newPlacements.
  - apply get_newPlacements_target.
  - intros k Hk. now apply get_newPlacements_others.
Qed.

Lemma place_idempotent_witness :
  let p := [("E", VStr "a"); ("S", VStr "b"); ("G", VNull)] in
  place (place p (Some "a") "S") (Some "a") "S" = place p (Some "a") "S".
Proof.
  apply place_idempotent.
  repeat constructor; simpl; intuition discriminate.
Defined.

(** X6: whatever the placements and wherever it is dropped, on a target
    or on the pool, a dropped item is not among the unplaced items
    afterwards.  The name dropped on is any name but [__proto__], under
    which an assignment stores nothing. *)
Theorem dropped_item_leaves_pool (random : nat -> Q)
        (node : DragDropQuizNode) (p : Placements) (d t : string) :
  d <> "" ->
  t <> "__proto__" ->
  ~ In d (map item_id (unplacedItems random node (place p (Some d) t))).
Proof.
  intros Hd _ I. rewrite (place_Some' _ _ _ Hd) in I.
  apply in_map_iff in I as [item [E I]].
  unfold unplacedItems in I. apply filter_In in I as [_ F].
  apply negb_true_iff in F. rewrite E in F.
  assert (H : includes (values (newPlacements p d t)) (VStr d) = true).
  { apply includes_In, In_assigned_values.
    apply (get_assigned _ t). apply get_newPlacements_target. }
  congruence.
Qed.

Lemma dropped_item_leaves_pool_witness :
  ~ In "a" (map item_id
               (unplacedItems (fun _ => 1 # 4)%Q esg_node
                  (place (initialPlacements esg_node) (Some "a")
                         "unplaced"))).
Proof. apply dropped_item_leaves_pool; discriminate. Defined.

(** X7: a drop on a name that is neither a key of the placements nor a
    property name of [Object.prototype], such as the pool's ['unplaced'],
    adds that one key and stores the dragged item under it; no swap takes
    place, and every other key keeps its value, except that a key that
    held the dragged item is reset to [null]. *)
Theorem drop_on_missing_key (p : Placements) (d t : string) :
  d <> "" ->
  ~ In t (keys p) ->
  ~ In t prototype_names ->
  Permutation (keys (place p (Some d) t)) (t :: keys p) /\
  get (place p (Some d) t) t = Some (VStr d) /\
  (forall k, k <> t ->
             get (place p (Some d) t) k
             = if get_is p k d then Some VNull else get p k).
Proof.
  intros Hd Nt _. rewrite (place_Some' _ _ _ Hd).
  assert (S : swap_of p d t = None).
  { destruct (swap_of p d t) as [[key e]|] eqn:S; [|reflexivity].
    apply swap_of_Some in S as (Gt & _).
    apply get_Some_keys in Gt. tauto. }
  split; [|split].
  - rewrite newPlacements_swap_of, S.
    pose proof (keys_set_absent t (VStr d) (free_old_spot d p)) as P.
    rewrite keys_free_old_spot in P. exact (P Nt).
  - apply get_newPlacements_target.
  - intros k Hk. rewrite get_newPlacements, S.
    apply not_eq_sym, String.eqb_neq in Hk. now rewrite Hk.
Qed.

Lemma drop_on_missing_key_witness :
  get (place [("E", VStr "a"); ("S", VNull)] (Some "a") "unplaced")
      "unplaced" = Some (VStr "a").
Proof.
  apply drop_on_missing_key.
  - discriminate.
  - simpl. intuition discriminate.
  - simpl. intuition discriminate.
Defined.

(** *** Moving an item and moving it back *)

Lemma oldTargetKey_exists (p : Placements) (d k : string) :
  get p k = Some (VStr d) -> exists key, oldTargetKey p d = Some key.
Proof.
  intros G. destruct (oldTargetKey p d) as [key|] eqn:E; [now exists key|].
  exfalso. exact (oldTargetKey_None p d E k G).
Qed.

Lemma get_is_false (o : object) (k s : string) :
  get o k <> Some (VStr s) -> get_is o k s = false.
Proof.
  intros N. destruct (get_is o k s) eqn:E; [|reflexivity].
  apply get_is_true in E. tauto.
Qed.

(** The two ways a move of a placed item from [key] to another key [t]
    can go: a swap with the item of [t], or a plain move to an empty
    [t]. *)
Lemma move_placed_item (p : Placements) (d key t : string) :
  one_target_per_item p ->
  get p key = Some (VStr d) ->
  In t (keys p) -> t <> key ->
  key <> "" -> get p t <> Some (VStr "") ->
  (exists e, get p t = Some (VStr e) /\ e <> d /\ e <> "" /\
             forall k, get (newPlacements p d t) k
                       = if String.eqb key k then Some (VStr e)
                         else if String.eqb t k then Some (VStr d)
                         else get p k) \/
  (get p t = Some VNull /\
   forall k, get (newPlacements p d t) k
             = if String.eqb t k then Some (VStr d)
               else if String.eqb key k then Some VNull
               else get p k).
Proof.
  intros Hinj Gk It Hne Hkey Hempty.
  assert (Honly : forall k, k <> key -> get_is p k d = false).
  { intros k Hk. apply get_is_false. intros G. apply Hk.
    now apply (Hinj k key d). }
  assert (Hkd : get_is p key d = true) by now apply get_is_true.
  destruct (oldTargetKey_exists p d key Gk) as [key' Ho].
  assert (key' = key) as ->.
  { apply oldTargetKey_Some in Ho as [_ G]. now apply (Hinj key' key d). }
  destruct (get p t) as [[|e]|] eqn:Gt.
  - right. split; [reflexivity|].
    assert (S : swap_of p d t = None).
    { destruct (swap_of p d t) as [[k0 e]|] eqn:S; [|reflexivity].
      apply swap_of_Some in S as (G & _). congruence. }
    intros k. rewrite get_newPlacements, S.
    destruct (String.eqb_spec t k) as [_|N1]; [reflexivity|].
    destruct (String.eqb_spec key k) as [<-|N2]; [now rewrite Hkd|].
    now rewrite (Honly k (not_eq_sym N2)).
  - left. exists e.
    assert (Hed : e <> d).
    { intros ->. apply Hne. now apply (Hinj t key d). }
    assert (He : e <> "") by congruence.
    repeat split; auto.
    assert (S : swap_of p d t = Some (key, e))
      by (apply swap_of_Some; tauto).
    intros k. rewrite get_newPlacements, S.
    destruct (String.eqb_spec key k) as [_|N1]; [reflexivity|].
    destruct (String.eqb_spec t k) as [_|N2]; [reflexivity|].
    now rewrite (Honly k (not_eq_sym N1)).
  - apply get_None_keys in Gt. tauto.
Qed.

Lemma move_back (p : Placements) (d key t : string) :
  NoDup (keys p) -> one_target_per_item p ->
  get p key = Some (VStr d) -> In t (keys p) ->
  key <> "" -> t <> "" -> get p t <> Some (VStr "") ->
  newPlacements (newPlacements p d t) d key = p.
Proof.
  intros ND Hinj Gk It Hkey Ht Hempty.
  assert (Honly : forall k, k <> key -> get p k <> Some (VStr d)).
  { intros k Hk G. apply Hk. now apply (Hinj k key d). }
  destruct (string_dec t key) as [->|Hne].
  { rewrite (newPlacements_own_target p d key ND Gk Honly).
    exact (newPlacements_own_target p d key ND Gk Honly). }
  assert (Ik : In key (keys p)) by (eapply get_Some_keys; eauto).
  assert (K1 : keys (newPlacements p d t) = keys p)
    by now apply keys_newPlacements.
  set (p1 := newPlacements p d t) in *.
  assert (ND1 : NoDup (keys p1)) by now rewrite K1.
  assert (Ho1 : oldTargetKey p1 d = Some t).
  { destruct (oldTargetKey_exists p1 d t (get_newPlacements_target p d t))
      as [k0 Ho].
    pose proof (oldTargetKey_Some _ _ _ Ho) as [_ G].
    destruct (string_dec k0 t) as [->|N]; [exact Ho|].
    exfalso. exact (get_newPlacements_others p d t k0 N G). }
  apply object_ext.
  - rewrite keys_newPlacements; [exact K1 | now rewrite K1].
  - now apply NoDup_keys_newPlacements.
  - intros k _. rewrite get_newPlacements.
    destruct (move_placed_item p d key t Hinj Gk It Hne Hkey Hempty)
      as [(e & Gt & Hed & He & G1)|(Gt & G1)]; fold p1 in G1.
    + assert (S : swap_of p1 d key = Some (t, e)).
      { apply swap_of_Some. rewrite G1, String.eqb_refl. tauto. }
      rewrite S.
      destruct (String.eqb_spec t k) as [<-|N1]; [now rewrite Gt|].
      destruct (String.eqb_spec key k) as [<-|N2]; [now rewrite Gk|].
      rewrite get_is_false, G1.
      * apply String.eqb_neq in N1, N2. now rewrite N1, N2.
      * apply get_newPlacements_others. congruence.
    + assert (S : swap_of p1 d key = None).
      { destruct (swap_of p1 d key) as [[k0 e]|] eqn:S; [|reflexivity].
        apply swap_of_Some in S as (G & _). rewrite G1 in G.
        apply String.eqb_neq in Hne. rewrite Hne, String.eqb_refl in G.
        discriminate. }
      rewrite S.
      destruct (String.eqb_spec key k) as [<-|N2]; [now rewrite Gk|].
      destruct (String.eqb_spec t k) as [<-|N1].
      * assert (E : get_is p1 t d = true)
          by (apply get_is_true, get_newPlacements_target).
        now rewrite E, Gt.
      * rewrite get_is_false, G1.
        -- apply String.eqb_neq in N1, N2. now rewrite N1, N2.
        -- apply get_newPlacements_others. congruence.
Qed.

(** X4: moving a placed item to another target and back restores the
    placements: if [d] is on [key], every item is on at most one target,
    the ids involved are non-empty and the other target holds no
    empty-string item, then dropping [d] on [t] and then on [key] again
    gives the placements one started from, also when the first drop
    swapped [d] with the item of [t]. *)
Theorem move_and_back (p : Placements) (d key t : string) :
  NoDup (keys p) -> one_target_per_item p ->
  get p key = Some (VStr d) -> In t (keys p) ->
  d <> "" -> key <> "" -> t <> "" -> get p t <> Some (VStr "") ->
  place (place p (Some d) t) (Some d) key = p.
Proof.
  intros ND Hinj Gk It Hd Hkey Ht Hempty.
  rewrite !(place_Some' _ _ _ Hd). now apply move_back.
Qed.

Lemma move_and_back_witness :
  let p := [("E", VStr "a"); ("S", VStr "b"); ("G", VNull)] in
  place (place p (Some "a") "S") (Some "a") "E" = p.
Proof.
  apply move_and_back; try discriminate.
  - repeat constructor; simpl; intuition discriminate.
  - intros k1 k2 s. simpl.
    destruct (String.eqb_spec k1 "E") as [->|_];
      destruct (String.eqb_spec k2 "E") as [->|_];
      try destruct (String.eqb_spec k1 "S") as [->|_];
      try destruct (String.eqb_spec k2 "S") as [->|_];
      try destruct (String.eqb_spec k1 "G") as [->|_];
      try destruct (String.eqb_spec k2 "G") as [->|_];
      congruence.
  - reflexivity.
  - simpl. tauto.
Defined.



(** *** The initial state *)

Lemma filter_all {A : Type} (f : A -> bool) (l : list A) :
  (forall x, In x l -> f x = true) -> filter f l = l.
Proof.
  induction l as [|a l IH]; intros H; simpl; [reflexivity|].
  rewrite (H a (or_introl eq_refl)). f_equal. apply IH.
  intros x I. apply H. now right.
Qed.

(** X8: at the start every item is in the pool, in shuffled order, so
    the check-answer button is there from the start exactly when the
    node has no items. *)
Theorem initial_pool (random : nat -> Q) (node : DragDropQuizNode) :
  unplacedItems random node (initialPlacements node)
  = shuffledItems random node /\
  (allPlaced random node (initialPlacements node) = true <->
   items node = []).
Proof.
  assert (E : unplacedItems random node (initialPlacements node)
              = shuffledItems random node).
  { unfold unplacedItems. apply filter_all. intros item _.
    apply negb_true_iff.
    destruct (includes (values (initialPlacements node))
                       (VStr (item_id item))) eqn:I; [|reflexivity].
    apply includes_In, In_assigned_values in I.
    rewrite assigned_initialPlacements in I. destruct I. }
  split; [exact E|]. unfold allPlaced. rewrite E, Nat.eqb_eq.
  unfold shuffledItems.
  rewrite (Permutation_length (sort_Permutation random (items node))).
  apply length_zero_iff_nil.
Qed.

Lemma add_not_index (k : string) (v : value) (o : object) :
  array_index k = None -> add k v o = o ++ [(k, v)].
Proof.
  intros E. induction o as [|[k' v'] r IH]; simpl; [reflexivity|].
  unfold key_before. rewrite E. now f_equal.
Qed.

Lemma init_loop_order (ts : list DragDropQuizTarget) (acc : Placements) :
  NoDup (keys acc ++ map target_id ts) ->
  (forall target, In target ts -> array_index (target_id target) = None) ->
  fold_left (fun acc target => set (target_id target) VNull acc) ts acc
  = acc ++ map (fun target => (target_id target, VNull)) ts.
Proof.
  revert acc. induction ts as [|target ts IH]; intros acc ND Hidx; simpl.
  - now rewrite app_nil_r.
  - assert (N : ~ In (target_id target) (keys acc)).
    { intros I. simpl in ND. apply NoDup_remove_2 in ND. apply ND.
      apply in_or_app. now left. }
    assert (E : set (target_id target) VNull acc
                = acc ++ [(target_id target, VNull)]).
    { unfold set. destruct (has_key acc (target_id target)) eqn:H.
      - apply has_key_keys in H. tauto.
      - apply add_not_index, Hidx. now left. }
    rewrite E, IH.
    + now rewrite <- app_assoc.
    + unfold keys. rewrite map_app. simpl. rewrite <- app_assoc. exact ND.
    + intros target' I. apply Hidx. now right.
Qed.

(** X9: when the target ids are pairwise distinct, none of them is an
    array index (a canonical decimal numeral) and none is [__proto__],
    the initial placements are the targets in declared order, each with
    [null]; in particular [Object.keys] enumerates the target ids in
    declared order. *)
Theorem initialPlacements_order (node : DragDropQuizNode) :
  NoDup (target_ids node) ->
  (forall target, In target (targets node) ->
                  array_index (target_id target) = None) ->
  ~ In "__proto__" (target_ids node) ->
  initialPlacements node
  = map (fun target => (target_id target, VNull)) (targets node) /\
  keys (initialPlacements node) = target_ids node.
Proof.
  intros ND Hidx _.
  assert (E : initialPlacements node
              = map (fun target => (target_id target, VNull)) (targets node)).
  { unfold initialPlacements. now rewrite init_loop_order. }
  split; [exact E|]. rewrite E. unfold keys, target_ids.
  rewrite map_map. reflexivity.
Qed.

Lemma initialPlacements_order_witness :
  keys (initialPlacements esg_node) = ["E"; "S"; "G"].
Proof.
  apply initialPlacements_order.
  - repeat constructor; simpl; intuition discriminate.
  - intros target [<-|[<-|[<-|[]]]]; reflexivity.
  - simpl. intuition discriminate.
Defined.

(** *** Nodes that cannot be answered correctly *)

(** X10: when two targets with different ids declare the same correct
    item, the check of [handleCheckAnswer] is false in every placements
    state reached by drops: one item is never on two targets. *)
Theorem shared_correct_item_never_correct (node : DragDropQuizNode)
        (ops : list (string * string)) (t1 t2 : DragDropQuizTarget) :
  In t1 (targets node) -> In t2 (targets node) ->
  target_id t1 <> target_id t2 ->
  correctItemId t1 = correctItemId t2 ->
  isCorrect node (drops (initialPlacements node) ops) = false.
Proof.
  intros I1 I2 Hne Hc.
  destruct (isCorrect node (drops (initialPlacements node) ops)) eqn:E;
    [|reflexivity].
  exfalso. apply Hne.
  destruct (QuizSpec.drops_keep_items_apart node ops) as [_ Hinj].
  pose proof (proj1 (QuizSpec.isCorrect_true node _) E) as H.
  apply (Hinj _ _ (correctItemId t1)); [now apply H|].
  rewrite Hc. now apply H.
Qed.

Lemma shared_correct_item_never_correct_witness :
  isCorrect {| items := [mkItem "a" "item_a"; mkItem "b" "item_b"];
               targets := [mkTarget "E" "E" "a"; mkTarget "S" "S" "a"];
               nextNode := "quiz_ok";
               incorrectNextNode := "quiz_retry" |}
            (drops (initialPlacements
                      {| items := [mkItem "a" "item_a"; mkItem "b" "item_b"];
                         targets := [mkTarget "E" "E" "a";
                                     mkTarget "S" "S" "a"];
                         nextNode := "quiz_ok";
                         incorrectNextNode := "quiz_retry" |})
                   [("a", "E"); ("b", "S")]) = false.
Proof.
  apply (shared_correct_item_never_correct _ _
           (mkTarget "E" "E" "a") (mkTarget "S" "S" "a")).
  - simpl. now left.
  - simpl. right. now left.
  - simpl. discriminate.
  - reflexivity.
Defined.

(** Every call of [onComplete] carries the verdict of the placements of
    that moment, which hold items of the node only. *)
Lemma completions_sound (random : nat -> Q) (node : DragDropQuizNode)
      (actions : list Action) (p : Placements) (b : bool) :
  In (p, b) (completions (run random node actions)) ->
  b = isCorrect node p /\ incl (assigned p) (item_ids node).
Proof.
  revert p b. induction actions as [|a actions IH] using rev_ind;
    intros p b I; [destruct I|].
  rewrite QuizSpec.run_snoc in I.
  pose proof (QuizSpec.ui_inv_run random node actions) as (_ & Hsub & _).
  set (s := run random node actions) in *.
  destruct a as [itemId| |targetId| |]; simpl in I.
  - destruct (in_list itemId _); simpl in I; now apply IH.
  - now apply IH.
  - destruct (in_list targetId _); [|now apply IH].
    unfold handleDrop in I. destruct (draggedItem s) as [d|];
      [|now apply IH].
    destruct (truthy_string d); simpl in I; now apply IH.
  - unfold handleDrop in I. destruct (draggedItem s) as [d|];
      [|now apply IH].
    destruct (truthy_string d); simpl in I; now apply IH.
  - destruct (allPlaced random node (placements s)); [|now apply IH].
    simpl in I. destruct I as [[= <- <-]|I]; [now split | now apply IH].
Qed.

(** X11: when the correct item declared by some target is no item of
    the node, no sequence of user actions, drops on the pool included,
    leads to a correct answer: the check is false in every state
    reached, and every call of [onComplete] passes [false]. *)
Theorem unknown_correct_item_never_correct (random : nat -> Q)
        (node : DragDropQuizNode) (actions : list Action)
        (target : DragDropQuizTarget) :
  In target (targets node) ->
  ~ In (correctItemId target) (item_ids node) ->
  isCorrect node (placements (run random node actions)) = false /\
  (forall p b, In (p, b) (completions (run random node actions)) ->
               b = false).
Proof.
  intros It Hn.
  assert (H : forall p, incl (assigned p) (item_ids node) ->
                        isCorrect node p = false).
  { intros p Hsub. apply (QuizSpec.isCorrect_false _ _ target It).
    intros G. apply Hn, Hsub. now apply (get_assigned _ (target_id target)). }
  split.
  - apply H. now destruct (QuizSpec.ui_inv_run random node actions)
      as (_ & Hsub & _).
  - intros p b I. apply completions_sound in I as [-> Hsub]. now apply H.
Qed.

Lemma unknown_correct_item_never_correct_witness :
  isCorrect {| items := [mkItem "a" "item_a"];
               targets := [mkTarget "E" "E" "z"];
               nextNode := "quiz_ok";
               incorrectNextNode := "quiz_retry" |}
            (placements
               (run (fun _ => 1 # 4)%Q
                    {| items := [mkItem "a" "item_a"];
                       targets := [mkTarget "E" "E" "z"];
                       nextNode := "quiz_ok";
                       incorrectNextNode := "quiz_retry" |}
                    [DragStart "a"; DropOnTarget "E"])) = false.
Proof.
  apply (unknown_correct_item_never_correct (fun _ => 1 # 4)%Q _
           [DragStart "a"; DropOnTarget "E"] (mkTarget "E" "E" "z")).
  - simpl. now left.
  - simpl. intuition discriminate.
Defined.

(** *** What the user sees *)

(** X12: as long as nothing is dropped on the pool, every item of the
    node can be picked up: its id is among the draggable elements, in the
    pool or in a drop zone, and nothing else is draggable; an item shown
    in the pool is on no target. *)
Theorem every_item_draggable (random : nat -> Q) (node : DragDropQuizNode)
        (actions : list Action) :
  no_pool_drop actions ->
  (forall itemId,
      In itemId (item_ids node) <->
      In itemId (draggable_ids random node
                               (placements (run random node actions)))) /\
  (forall item,
      In item (unplacedItems random node
                             (placements (run random node actions))) ->
      ~ In (item_id item) (assigned (placements (run random node actions)))).
Proof.
  intros Hno.
  destruct (QuizSpec.ui_inv_targets_run random node actions Hno)
    as ((Hk & NDk & _ & _) & _).
  set (p := placements (run random node actions)) in *.
  split.
  - intros itemId. split; [|apply QuizSpec.draggable_ids_items].
    intros I. unfold draggable_ids. apply in_or_app.
    destruct (includes (values p) (VStr itemId)) eqn:E.
    + right. apply includes_In, In_assigned_values, In_assigned in E
        as [k Ik].
      apply In_get in Ik as G; [|exact NDk].
      assert (It : In k (target_ids node)).
      { apply keys_initialPlacements. rewrite <- Hk.
        eapply get_Some_keys; eauto. }
      unfold target_ids in It. apply in_map_iff in It as [target [<- It]].
      apply in_flat_map. exists target. split; [exact It|].
      unfold item_ids in I. apply in_map_iff in I as [item [Ei Ii]].
      unfold placedItem.
      destruct (find (fun item0 =>
                        get_is p (target_id target) (item_id item0))
                     (items node)) as [found|] eqn:F.
      * apply find_some in F as [_ F]. apply get_is_true in F.
        left. congruence.
      * apply (find_none _ _ F) in Ii. rewrite Ei in Ii.
        apply get_is_true in G. congruence.
    + left. unfold item_ids in I. apply in_map_iff in I as [item [Ei Ii]].
      apply in_map_iff. exists item. split; [exact Ei|].
      unfold unplacedItems. apply filter_In. split.
      * apply (Permutation_in _
                 (Permutation_sym (sort_Permutation random _)) Ii).
      * now rewrite Ei, E.
  - intros item I Ia. unfold unplacedItems in I.
    apply filter_In in I as [_ F]. apply negb_true_iff in F.
    apply In_assigned_values, includes_In in Ia. congruence.
Qed.

Lemma every_item_draggable_witness :
  In "b" (draggable_ids (fun _ => 1 # 4)%Q esg_node
            (placements
               (run (fun _ => 1 # 4)%Q esg_node
                    [DragStart "a"; DropOnTarget "E";
                     DragStart "b"; DropOnTarget "E"]))).
Proof.
  apply (every_item_draggable (fun _ => 1 # 4)%Q esg_node
           [DragStart "a"; DropOnTarget "E";
            DragStart "b"; DropOnTarget "E"]).
  - repeat constructor; discriminate.
  - simpl. right. now left.
Defined.

(** X13: the check-answer button stays after a click: while the pool is
    empty, [n] clicks call [onComplete] [n] times with the same verdict,
    and leave the placements and the dragged item as they are. *)
Theorem repeated_check_answer (random : nat -> Q)
        (node : DragDropQuizNode) (st : State) (n : nat) :
  allPlaced random node (placements st) = true ->
  fold_left (step random node) (repeat ClickCheckAnswer n) st
  = {| placements := placements st;
       draggedItem := draggedItem st;
       completions :=
         repeat (placements st, isCorrect node (placements st)) n
         ++ completions st |}.
Proof.
  revert st. induction n as [|n IH]; intros st Ha; simpl.
  - now destruct st.
  - rewrite Ha. rewrite IH; [|exact Ha]. simpl. f_equal.
    generalize (placements st, isCorrect node (placements st)) as x.
    intros x. clear. induction n as [|n IHn]; simpl; congruence.
Qed.

Lemma repeated_check_answer_witness :
  completions
    (fold_left (step (fun _ => 1 # 4)%Q esg_node)
               (repeat ClickCheckAnswer 2)
               {| placements := [("E", VStr "a"); ("S", VStr "b");
                                 ("G", VStr "c")];
                  draggedItem := None;
                  completions := [] |})
  = [([("E", VStr "a"); ("S", VStr "b"); ("G", VStr "c")], true);
     ([("E", VStr "a"); ("S", VStr "b"); ("G", VStr "c")], true)].
Proof.
  rewrite (repeated_check_answer (fun _ => 1 # 4)%Q esg_node _ 2);
    reflexivity.
Defined.

(** X14: the label lookup falls back to the key: a key without a
    translation, or with the empty string as translation, is shown as
    itself, a non-empty translation is shown as it is, and a non-empty
    key never gives an empty label. *)
Theorem t_falls_back_to_key
        (translations : Presentation.Language -> string -> option string)
        (language : Presentation.Language) (key : string) :
  (translations language key = None ->
   Presentation.t translations language key = key) /\
  (translations language key = Some "" ->
   Presentation.t translations language key = key) /\
  (forall text, translations language key = Some text -> text <> "" ->
                Presentation.t translations language key = text) /\
  (key <> "" -> Presentation.t translations language key <> "").
Proof.
  unfold Presentation.t. repeat split.
  - now intros ->.
  - now intros ->.
  - intros text -> Ht. apply truthy_string_true in Ht. now rewrite Ht.
  - intros Hk. destruct (translations language key) as [text|];
      [|exact Hk].
    destruct (truthy_string text) eqn:T; [|exact Hk].
    now apply truthy_string_true.
Qed.

Lemma t_falls_back_to_key_witness :
  Presentation.t (fun _ key => if String.eqb key "Drop here"
                               then Some "Letak di sini" else None)
                 Presentation.ms "btn_check_answer" = "btn_check_answer".
Proof.
  destruct (t_falls_back_to_key
              (fun _ key => if String.eqb key "Drop here"
                            then Some "Letak di sini" else None)
              Presentation.ms "btn_check_answer") as (Hmissing & _).
  apply Hmissing. reflexivity.
Defined.

(** *** Correct answers *)

(** X15: on a node with pairwise distinct item ids, pairwise distinct
    target ids and as many items as targets, a state reached by drops of
    items of the node onto targets of the node that passes the check
    has an empty pool, so that the check-answer button is rendered:
    a correct arrangement can always be submitted. *)
Theorem correct_can_be_submitted (random : nat -> Q)
        (node : DragDropQuizNode) (ops : list (string * string)) :
  balanced node -> on_targets node ops ->
  isCorrect node (drops (initialPlacements node) ops) = true ->
  allPlaced random node (drops (initialPlacements node) ops) = true.
Proof.
  intros Hb Hops Hc.
  apply (QuizSpec.inv_complete_iff_allPlaced random node _ Hb
           (QuizSpec.placements_inv_drops node ops Hops)).
  apply QuizSpec.isComplete_true. intros k Ik.
  unfold target_ids in Ik. apply in_map_iff in Ik as [target [<- It]].
  exists (correctItemId target).
  now apply (proj1 (QuizSpec.isCorrect_true node _) Hc).
Qed.

Lemma correct_can_be_submitted_witness :
  allPlaced (fun _ => 1 # 4)%Q esg_node
            (drops (initialPlacements esg_node)
                   [("b", "S"); ("c", "G"); ("a", "E")]) = true.
Proof.
  apply correct_can_be_submitted.
  - repeat split; try reflexivity;
      repeat constructor; simpl; intuition discriminate.
  - repeat constructor; simpl; tauto.
  - reflexivity.
Defined.

(** A drop of an item that is on no key assigns it and changes nothing
    else. *)
Lemma drop_unplaced_item (p : Placements) (d t : string) :
  d <> "" -> (forall k, get p k <> Some (VStr d)) ->
  forall k, get (place p (Some d) t) k
            = if String.eqb t k then Some (VStr d) else get p k.
Proof.
  intros Hd Hno k. rewrite (place_Some' _ _ _ Hd), get_newPlacements.
  assert (S : swap_of p d t = None).
  { destruct (swap_of p d t) as [[key e]|] eqn:S; [|reflexivity].
    apply swap_of_Some in S as (_ & _ & _ & S & _).
    apply oldTargetKey_Some in S as [_ G]. exfalso. exact (Hno key G). }
  rewrite S. now rewrite (get_is_false p k d (Hno k)).
Qed.

Lemma solution_loop (ts : list DragDropQuizTarget) (p : Placements) :
  NoDup (map target_id ts) -> NoDup (map correctItemId ts) ->
  (forall target, In target ts ->
                  correctItemId target <> "" /\
                  forall k, get p k <> Some (VStr (correctItemId target))) ->
  (forall target, In target ts ->
     get (drops p (map (fun target => (correctItemId target,
                                       target_id target)) ts))
         (target_id target)
     = Some (VStr (correctItemId target))) /\
  (forall k, ~ In k (map target_id ts) ->
     get (drops p (map (fun target => (correctItemId target,
                                       target_id target)) ts)) k
     = get p k).
Proof.
  revert p. induction ts as [|t0 ts IH]; intros p NDi NDc Hfree.
  - split; [intros target []|reflexivity].
  - simpl in NDi, NDc.
    inversion NDi as [|? ? Ni NDi']; inversion NDc as [|? ? Nc NDc'];
      subst.
    destruct (Hfree t0 (or_introl eq_refl)) as [Hd0 Hno0].
    pose proof (drop_unplaced_item p _ (target_id t0) Hd0 Hno0) as G1.
    change (drops p (map (fun target => (correctItemId target,
                                         target_id target)) (t0 :: ts)))
      with (drops (place p (Some (correctItemId t0)) (target_id t0))
                  (map (fun target => (correctItemId target,
                                       target_id target)) ts)).
    destruct (IH (place p (Some (correctItemId t0)) (target_id t0))
                 NDi' NDc') as [Hin Hout].
    { intros target It.
      destruct (Hfree target (or_intror It)) as [Hd Hno].
      split; [exact Hd|]. intros k. rewrite G1.
      destruct (String.eqb_spec (target_id t0) k) as [_|_]; [|apply Hno].
      intros [= E]. apply Nc. rewrite E. now apply in_map. }
    split.
    + intros target [<-|It]; [|now apply Hin].
      rewrite (Hout _ Ni), G1. now rewrite String.eqb_refl.
    + intros k Nk. simpl in Nk.
      rewrite Hout; [|tauto]. rewrite G1.
      destruct (String.eqb_spec (target_id t0) k) as [E|_];
        [tauto | reflexivity].
Qed.

(** Carrying out the solution for the targets [ts], from a state in
    which nothing is dragged and none of their correct items is placed,
    is the sequence of drops [correct item, target]. *)
Lemma solution_run_loop (random : nat -> Q) (node : DragDropQuizNode)
      (ts : list DragDropQuizTarget) (st : State) :
  incl ts (targets node) ->
  NoDup (map correctItemId ts) ->
  NoDup (keys (placements st)) ->
  (forall target, In target ts ->
                  correctItemId target <> "" /\
                  In (correctItemId target) (item_ids node) /\
                  ~ In (correctItemId target) (assigned (placements st))) ->
  fold_left (step random node)
            (flat_map (fun target => [DragStart (correctItemId target);
                                      DropOnTarget (target_id target)]) ts)
            st
  = {| placements :=
         drops (placements st)
               (map (fun target => (correctItemId target, target_id target))
                    ts);
       draggedItem := match ts with [] => draggedItem st | _ => None end;
       completions := completions st |}.
Proof.
  revert st. induction ts as [|t0 ts IH]; intros st Hin NDc NDk Hfree.
  - now destruct st.
  - simpl in NDc. inversion NDc as [|? ? Nc NDc']; subst.
    destruct (Hfree t0 (or_introl eq_refl)) as (Hd0 & Hi0 & Hn0).
    assert (Hdrag : in_list (correctItemId t0)
                      (draggable_ids random node (placements st)) = true)
      by now apply in_list_In, QuizSpec.pool_item_draggable.
    assert (Htarget : in_list (target_id t0) (target_ids node) = true).
    { apply in_list_In, in_map, Hin. now left. }
    pose proof Hd0 as Htruthy. apply truthy_string_true in Htruthy.
    cbn [flat_map app fold_left map]. cbn [step]. rewrite Hdrag, Htarget.
    unfold handleDrop, handleDragStart.
    cbn [draggedItem placements completions]. rewrite Htruthy.
    rewrite IH; cbn [placements draggedItem completions].
    + f_equal.
      * unfold drops. cbn [fold_left fst snd].
        now rewrite (place_Some' _ _ _ Hd0).
      * now destruct ts.
    + intros target I. apply Hin. now right.
    + exact NDc'.
    + now apply NoDup_keys_newPlacements.
    + intros target I.
      destruct (Hfree target (or_intror I)) as (Hd & Hi & Hn).
      split; [exact Hd|]. split; [exact Hi|].
      intros Ia. apply assigned_newPlacements in Ia as [E|Ia]; auto.
      apply Nc. rewrite <- E. now apply in_map.
Qed.

(** X16: the quiz can be solved by the user.  On a node whose target ids
    are pairwise distinct and not [__proto__], and whose targets declare
    pairwise distinct, non-empty correct items that are items of the
    node, picking up each target's correct item and dropping it on the
    target, from the initial state, leads to placements that pass the
    check of [handleCheckAnswer]; when in addition every item is the
    correct item of some target, the check-answer button is then
    rendered and a click on it calls [onComplete(true)]. *)
Theorem quiz_can_be_solved (random : nat -> Q) (node : DragDropQuizNode) :
  NoDup (target_ids node) ->
  ~ In "__proto__" (target_ids node) ->
  NoDup (map correctItemId (targets node)) ->
  (forall target, In target (targets node) ->
                  correctItemId target <> "" /\
                  In (correctItemId target) (item_ids node)) ->
  isCorrect node (placements (run random node (solution_actions node)))
  = true /\
  (incl (item_ids node) (map correctItemId (targets node)) ->
   completions (run random node (solution_actions node ++ [ClickCheckAnswer]))
   = [(placements (run random node (solution_actions node)), true)]).
Proof.
  intros NDi _ NDc Hc.
  assert (Hrun : run random node (solution_actions node)
                 = {| placements := drops (initialPlacements node)
                                          (solution node);
                      draggedItem := match targets node with
                                     | [] => None | _ => None end;
                      completions := [] |}).
  { unfold run, solution_actions.
    rewrite (solution_run_loop random node (targets node)
                               (initialState node)).
    - reflexivity.
    - apply incl_refl.
    - exact NDc.
    - apply NoDup_keys_initialPlacements.
    - intros target I. destruct (Hc target I) as [Hd Hi].
      repeat split; auto. simpl.
      rewrite assigned_initialPlacements. intros []. }
  assert (Hsol := solution_loop (targets node) (initialPlacements node)
                                NDi NDc).
  destruct Hsol as [Hget _].
  { intros target I. split; [now apply Hc|].
    intros k. rewrite get_initialPlacements.
    destruct (in_list k (target_ids node)); discriminate. }
  fold (solution node) in Hget.
  assert (Hok : isCorrect node (drops (initialPlacements node)
                                      (solution node)) = true)
    by now apply QuizSpec.isCorrect_true.
  rewrite Hrun. cbn [placements]. split; [exact Hok|].
  intros Hall. rewrite QuizSpec.run_snoc, Hrun. cbn [step placements].
  assert (Hplaced : allPlaced random node
                      (drops (initialPlacements node) (solution node))
                    = true).
  { apply QuizSpec.allPlaced_true. intros s Is. apply Hall in Is.
    apply in_map_iff in Is as [target [<- It]].
    apply (get_assigned _ (target_id target)). now apply Hget. }
  rewrite Hplaced. cbn [handleCheckAnswer completions placements].
  now rewrite Hok.
Qed.

Lemma quiz_can_be_solved_witness :
  completions (run (fun _ => 1 # 4)%Q esg_node
                   (solution_actions esg_node ++ [ClickCheckAnswer]))
  = [(placements (run (fun _ => 1 # 4)%Q esg_node
                      (solution_actions esg_node)), true)].
Proof.
  destruct (quiz_can_be_solved (fun _ => 1 # 4)%Q esg_node)
    as [_ Hdone].
  - repeat constructor; simpl; intuition discriminate.
  - simpl. intuition discriminate.
  - repeat constructor; simpl; intuition discriminate.
  - intros target [<-|[<-|[<-|[]]]]; simpl; split;
      try discriminate; tauto.
  - apply Hdone. intros s Is. exact Is.
Defined.

End QuizExtras.
